(** * ww.js: path resolver, property registry, readiness engine, accessor

    A shallow embedding of [src/ww.js] (lines 29-407).  JavaScript objects
    live in a heap of property maps addressed by locations, so that the
    aliasing between a context graph, the registry's [_Property] instances
    and the [ww] wrappers handed to callers is the one of the source.

    Scope of the model
    - property reads are own data properties first, then whatever the
      prototype chain yields, which is a parameter of the model
      ([inherited]) and does not depend on the heap: prototype objects
      are not objects of the heap, and code that writes on an object
      others inherit from is outside the model;
    - a read can throw: reading a property of [undefined] or [null]
      always does, and the host says which other reads do
      ([read_throws]), as the reads of ['caller'] and ['arguments'] of a
      strict-mode function, which [Ww] itself is (line 30);
    - the functions are strict-mode code: assigning a property of a
      primitive throws a TypeError;
    - objects are ordinary objects with data properties: a store changes
      the one property it names.  Arrays, whose [length] follows the
      indices stored, setters, proxies and frozen objects are not
      modelled;
    - numbers are integers; strings are made of code points below 256;
    - a function called by the module, a callback or the value that
      [apply] and [call] invoke, is an arbitrary transformer of the whole
      state, which returns or throws ([run_fn] and [fn_throws],
      [apply_fn] and [apply_throws]). *)

From stdpp Require Import gmap strings list fin_maps sorting pretty.
From Stdlib Require Import ZArith.

Local Open Scope Z_scope.

(** ** Values and the heap *)

Abbreviation loc := nat (only parsing).

Inductive val : Type :=
| VUndef
| VNull
| VBool (b : bool)
| VNum (n : Z)
| VStr (s : string)
| VObj (l : loc)
| VFun (l : loc).

Global Instance val_eq_dec : EqDecision val.
Proof. solve_decision. Defined.

Global Instance val_inhabited : Inhabited val := populate VUndef.

(** The [typeof] operator. *)
Definition typeof (v : val) : string :=
  match v with
  | VUndef => "undefined"
  | VNull => "object"
  | VBool _ => "boolean"
  | VNum _ => "number"
  | VStr _ => "string"
  | VObj _ => "object"
  | VFun _ => "function"
  end.

Definition is_undefined (v : val) : bool := bool_decide (typeof v = "undefined").
Definition is_function (v : val) : bool := bool_decide (typeof v = "function").

Abbreviation obj := (gmap string val) (only parsing).
Abbreviation heapT := (gmap nat (gmap string val)) (only parsing).

(** Results of code that may throw: the state reached is kept in both
    cases, since writes made before a throw persist.  The module catches
    nothing and every exception of the model leaves it the same way, so
    one constructor stands for all of them, a callback's included. *)
Inductive outcome (S A : Type) : Type :=
| Ok (a : A) (s : S)
| TypeError (s : S).
Arguments Ok {S A} a s.
Arguments TypeError {S A} s.

Definition state_of {S A} (o : outcome S A) : S :=
  match o with Ok _ s => s | TypeError s => s end.

Definition throws {S A} (o : outcome S A) : bool :=
  match o with Ok _ _ => false | TypeError _ => true end.

(** ** The closure state of the module *)

Record State : Type := mkState {
  heap : heapT;
  (** [_properties] (line 37): id to [_Property] instance. *)
  _properties : gmap Z loc;
  (** [_i] (line 59). *)
  _i : Z;
  (** [_propertiesUnready] (line 152): id to callback. *)
  _propertiesUnready : gmap Z val;
  (** [_isPaused] (line 95). *)
  _isPaused : bool
}.

Definition with_heap (h : heapT) (st : State) : State :=
  mkState h (_properties st) (_i st) (_propertiesUnready st) (_isPaused st).

Definition with_unready (u : gmap Z val) (st : State) : State :=
  mkState (heap st) (_properties st) (_i st) u (_isPaused st).

Definition with_paused (b : bool) (st : State) : State :=
  mkState (heap st) (_properties st) (_i st) (_propertiesUnready st) b.

(** The host: what prototype chains contribute to a property read,
    which reads throw, what calling a function value with one argument
    does to the state, and whether that call throws instead of returning
    (the state is then the one reached when it threw). *)
Class Host : Type := {
  inherited : val → string → val;
  read_throws : val → string → bool;
  run_fn : val → val → State → State;
  fn_throws : val → val → State → bool
}.

(** Calling a function value with a receiver and a list of arguments,
    which is what [Function.prototype.apply] does with the function, and
    whether that call throws instead of returning. *)
Class Caller : Type := {
  apply_fn : val → val → list val → State → State;
  apply_throws : val → val → list val → State → bool
}.

(** The function object [Ww] itself, the default context (line 228). *)
Definition Ww_loc : loc := 0%nat.
Definition Ww_root : val := VFun Ww_loc.

(** ** [String.prototype.split('.')] and the blank test of line 390 *)

Fixpoint split_on (sep : Ascii.ascii) (s : string) : list string :=
  match s with
  | EmptyString => [EmptyString]
  | String c r =>
      if decide (c = sep) then EmptyString :: split_on sep r
      else match split_on sep r with
           | x :: xs => String c x :: xs
           | [] => [String c EmptyString]
           end
  end.

Definition dot : Ascii.ascii := Ascii.ascii_of_nat 46.

(** Code points below 256 that [trim] removes. *)
Definition is_white (c : Ascii.ascii) : bool :=
  let n := Ascii.nat_of_ascii c in
  bool_decide (n = 9 ∨ n = 10 ∨ n = 11 ∨ n = 12 ∨ n = 13 ∨ n = 32 ∨ n = 160)%nat.

(** [!s.trim().length] *)
Fixpoint blank (s : string) : bool :=
  match s with
  | EmptyString => true
  | String c r => is_white c && blank r
  end.

(** ** [_getContext] (lines 224-229) *)
Definition _getContext (context : val) : val :=
  if bool_decide (typeof context = "object") || bool_decide (typeof context = "function")
  then context
  else Ww_root.

(** ** Property access *)

Section access.
Context {host : Host}.

(** [v[k]]; [None] is a TypeError: that of reading through [undefined]
    or [null], or the one a property of the prototype chain throws when
    read.  The prototype chain of an object belongs to the object, so it
    is looked up by location whatever the tag of the reference. *)
Definition get_prop (h : heapT) (v : val) (k : string) : option val :=
  match v with
  | VUndef | VNull => None
  | VObj l | VFun l =>
      match h !! l ≫= (.!! k) with
      | Some x => Some x
      | None => if read_throws (VObj l) k then None else Some (inherited (VObj l) k)
      end
  | _ => if read_throws v k then None else Some (inherited v k)
  end.

(** [v[k] = x] in strict mode; [None] is the TypeError of assigning
    through [undefined], [null] or a primitive. *)
Definition set_prop (h : heapT) (v : val) (k : string) (x : val) : option heapT :=
  match v with
  | VObj l | VFun l => Some (<[l := <[k := x]> (default ∅ (h !! l))]> h)
  | _ => None
  end.

(** ** [_getProperty] (lines 241-261)

    [walk] is the [for] loop over the segments, [prev] being
    [propertyPrevious]. *)
Fixpoint walk (isExtend : bool) (extendValue : val) (segs : list string)
    (prev : val) (h : heapT) : outcome heapT val :=
  match segs with
  | [] => Ok prev h
  | propertyString :: rest =>
      match get_prop h prev propertyString with
      | None => TypeError h
      | Some property =>
          if is_undefined property then
            if isExtend then
              match set_prop h prev propertyString extendValue with
              | None => TypeError h
              | Some h' =>
                  match get_prop h' prev propertyString with
                  | None => TypeError h'
                  | Some prev' => walk isExtend extendValue rest prev' h'
                  end
              end
            else Ok VUndef h
          else walk isExtend extendValue rest property h
      end
  end.

Definition _getProperty (propertyPathString context extendValue : val)
    (h : heapT) : outcome heapT val :=
  match propertyPathString with
  | VStr s => walk (negb (is_undefined extendValue)) extendValue (split_on dot s) context h
  | _ => TypeError h
  end.
End access.

(** ** [_Property] (lines 52-80) *)

Module _Property.
(** [new _Property(value, path, context)]: returns the location of the
    new instance. *)
Definition new (value path context : val) (st : State) : loc * State :=
  let this := fresh (dom (heap st)) in
  (this,
   mkState
     (<[this := {[ "context" := context;
                   "id" := VNum (_i st);
                   "path" := path;
                   "type" := VStr (typeof value);
                   "value" := value ]}]> (heap st))
     (<[_i st := this]> (_properties st))
     (_i st + 1)
     (_propertiesUnready st)
     (_isPaused st)).

(** [this.update(value)] *)
Definition update (this : loc) (value : val) (st : State) : State :=
  with_heap
    (<[this := <["value" := value]>
                 (<["type" := VStr (typeof value)]> (default ∅ (heap st !! this)))]>
       (heap st))
    st.
End _Property.

(** ** Callback invocations

    The engine and [ready] call callbacks; each call is recorded, with the
    state the callee starts in, in a log that callbacks cannot reach. *)

Record Invocation : Type := mkInvocation {
  (** the pending entry being fired, [None] for the direct call of [ready] *)
  inv_entry : option Z;
  inv_cb : val;
  inv_arg : val;
  inv_before : State
}.

Record World : Type := mkWorld {
  js : State;
  calls : list Invocation
}.

Definition lift_heap {A} (o : outcome heapT A) (st : State) : outcome State A :=
  match o with
  | Ok a h => Ok a (with_heap h st)
  | TypeError h => TypeError (with_heap h st)
  end.

Section invoke.
Context {host : Host}.

(** [f(arg)]; calling a value that is not a function is a TypeError, and
    what the function throws goes to the caller. *)
Definition invoke (entry : option Z) (f arg : val) (w : World) : outcome World unit :=
  if is_function f then
    let w' := mkWorld (run_fn f arg (js w))
                      (calls w ++ [mkInvocation entry f arg (js w)]) in
    if fn_throws f arg (js w) then TypeError w' else Ok tt w'
  else TypeError w.
End invoke.

(** ** [PropertiesUnready] (lines 144-215) *)

Module PropertiesUnready.
(** The ids that [for (i in _propertiesUnready)] goes through: the keys
    are integer indices, which are enumerated in ascending order. *)
Definition keys (st : State) : list Z :=
  merge_sort Z.le (elements (dom (_propertiesUnready st))).

(** [getIds()] (lines 159-168) pushes the keys as [for ... in] yields
    them, which is as strings. *)
Definition getIds (st : State) : list val :=
  (λ i, VStr (pretty i)) <$> keys st.

Definition set (id callback : val) (st : State) : bool * State :=
  match id with
  | VNum n =>
      if is_function callback then
        match _properties st !! n with
        | None => (false, st)
        | Some _ => (true, with_unready (<[n := callback]> (_propertiesUnready st)) st)
        end
      else (false, st)
  | _ => (false, st)
  end.

Section engine.
Context {host : Host}.

(** One iteration of the [for (i in _propertiesUnready)] loop. *)
Definition process_entry (i : Z) (w : World) : outcome World unit :=
  let st := js w in
  match _propertiesUnready st !! i with
  | None => Ok tt w
  | Some _ =>
      match _properties st !! i with
      | None => TypeError w
      | Some property =>
          match get_prop (heap st) (VObj property) "path",
                get_prop (heap st) (VObj property) "context" with
          | Some path, Some context =>
              match _getProperty path context VUndef (heap st) with
              | TypeError h => TypeError (mkWorld (with_heap h st) (calls w))
              | Ok value h =>
                  let st1 := with_heap h st in
                  if is_undefined value then Ok tt (mkWorld st1 (calls w))
                  else
                    let st2 := _Property.update property value st1 in
                    match invoke (Some i)
                            (default VUndef (_propertiesUnready st2 !! i))
                            (VObj property) (mkWorld st2 (calls w)) with
                    | TypeError w' => TypeError w'
                    | Ok _ w' =>
                        Ok tt (mkWorld
                                 (with_unready (delete i (_propertiesUnready (js w'))) (js w'))
                                 (calls w'))
                    end
              end
          | _, _ => TypeError w
          end
      end
  end.

Fixpoint process_loop (ids : list Z) (w : World) : outcome World unit :=
  match ids with
  | [] => Ok tt w
  | i :: rest =>
      match process_entry i w with
      | Ok _ w' => process_loop rest w'
      | TypeError w' => TypeError w'
      end
  end.

(** The keys are enumerated when the loop starts; a key deleted before
    its turn is skipped ([process_entry]), a key added during the loop
    waits for the next call. *)
Definition process (w : World) : outcome World unit :=
  process_loop (keys (js w)) w.
End engine.
End PropertiesUnready.

(** ** [Interval] (lines 89-133); the timer itself is the host's *)

Module Interval.
Section interval.
Context {host : Host}.

Definition pause (st : State) : State := with_paused true st.
Definition resume (st : State) : State := with_paused false st.

Definition _callback (w : World) : outcome World unit :=
  if negb (_isPaused (js w)) then PropertiesUnready.process w else Ok tt w.
End interval.
End Interval.

(** ** The wrapper [ww] (lines 268-368) *)

Module ww.
Section ww.
Context {host : Host}.

(** [new ww(property)]: copies the own properties of the instance. *)
Definition new (property : loc) (st : State) : loc * State :=
  let this := fresh (dom (heap st)) in
  (this, with_heap (<[this := default ∅ (heap st !! property)]> (heap st)) st).

(** [this.apply(valueForThis, arrayOfArguments)] (lines 284-290).  The
    array is given by its elements, [None] when the argument is left out.
    [this.value.apply] is [Function.prototype.apply] when the value is a
    function and a TypeError otherwise; what the function throws goes to
    the caller. *)
Definition apply {caller : Caller} (this valueForThis : val)
    (arrayOfArguments : option (list val)) (st : State) : outcome State val :=
  match get_prop (heap st) this "type" with
  | None => TypeError st
  | Some type =>
      if negb (bool_decide (type = VStr "function")) then Ok (VBool false) st
      else
        match get_prop (heap st) this "value" with
        | Some value =>
            if is_function value then
              let st' := apply_fn value valueForThis (default [] arrayOfArguments) st in
              if apply_throws value valueForThis (default [] arrayOfArguments) st
              then TypeError st' else Ok (VBool true) st'
            else TypeError st
        | None => TypeError st
        end
  end.

(** [this.call(...)] (lines 297-312); [arguments] is the list of what the
    caller passed.  The [arguments] object maps indices to values; after
    [delete arguments[0]] the loop pushes what is left, in the ascending
    order in which [for ... in] enumerates indices. *)
Definition call {caller : Caller} (this : val) (arguments : list val)
    (st : State) : outcome State val :=
  match get_prop (heap st) this "type" with
  | None => TypeError st
  | Some type =>
      if negb (bool_decide (type = VStr "function")) then Ok (VBool false) st
      else
        let arguments : gmap nat val := map_seq 0 arguments in
        let valueForThis := default VUndef (arguments !! 0%nat) in
        let arguments := delete 0%nat arguments in
        let argumentsNew :=
          omap (λ i, arguments !! i) (merge_sort Nat.le (elements (dom arguments))) in
        match get_prop (heap st) this "value" with
        | Some value =>
            if is_function value then
              let st' := apply_fn value valueForThis argumentsNew st in
              if apply_throws value valueForThis argumentsNew st
              then TypeError st' else Ok (VBool true) st'
            else TypeError st
        | None => TypeError st
        end
  end.

(** [this.extend(value)] (lines 320-325) *)
Definition extend (this value : val) (st : State) : outcome State val :=
  let '(value, h) :=
    if is_undefined value then
      let l := fresh (dom (heap st)) in (VObj l, <[l := ∅]> (heap st))
    else (value, heap st) in
  match get_prop h this "path", get_prop h this "context" with
  | Some path, Some context => lift_heap (_getProperty path context value h) st
  | _, _ => TypeError (with_heap h st)
  end.

(** [this.getValue(defaultValue)] (lines 342-348) *)
Definition getValue (this defaultValue : val) (st : State) : outcome State val :=
  match get_prop (heap st) this "path", get_prop (heap st) this "context" with
  | Some path, Some context =>
      match _getProperty path context VUndef (heap st) with
      | TypeError h => TypeError (with_heap h st)
      | Ok value h =>
          if negb (is_undefined value) then Ok value (with_heap h st)
          else Ok defaultValue (with_heap h st)
      end
  | _, _ => TypeError st
  end.

(** [this.getType()] (lines 332-334) *)
Definition getType (this : val) (st : State) : outcome State val :=
  match getValue this VUndef st with
  | Ok v st' => Ok (VStr (typeof v)) st'
  | TypeError st' => TypeError st'
  end.

(** [this.ready(callback)] (lines 356-368) *)
Definition ready (this callback : val) (w : World) : outcome World val :=
  let isCallbackAFunction := is_function callback in
  match get_prop (heap (js w)) this "type" with
  | None => TypeError w
  | Some type =>
      if negb (bool_decide (type = VStr "undefined")) then
        if isCallbackAFunction then
          match invoke None callback this w with
          | Ok _ w' => Ok (VBool true) w'
          | TypeError w' => TypeError w'
          end
        else Ok (VBool true) w
      else if isCallbackAFunction then
        match get_prop (heap (js w)) this "id" with
        | None => TypeError w
        | Some id =>
            Ok (VBool false)
               (mkWorld (PropertiesUnready.set id callback (js w)).2 (calls w))
        end
      else Ok (VBool false) w
  end.
End ww.
End ww.

(** ** [Ww] (lines 386-402) *)

Section Ww.
Context {host : Host}.

Definition Ww (propertyPathString context : val) (st : State) : outcome State val :=
  match propertyPathString with
  | VStr s =>
      if blank s then Ok VUndef st
      else
        let context := _getContext context in
        match _getProperty (VStr s) context VUndef (heap st) with
        | TypeError h => TypeError (with_heap h st)
        | Ok value h =>
            let '(property, st1) := _Property.new value (VStr s) context (with_heap h st) in
            let '(this, st2) := ww.new property st1 in
            Ok (VObj this) st2
        end
  | VNum n =>
      match _properties st !! n with
      | None => Ok VUndef st
      | Some property =>
          let '(this, st') := ww.new property st in
          Ok (VObj this) st'
      end
  | _ => Ok VUndef st
  end.
End Ww.

(** The state right after the module is loaded: the function object [Ww]
    with its two public members, nothing registered, nothing pending. *)
Definition init : State :=
  mkState
    {[ Ww_loc := {[ "_interval" := VObj 1%nat; "_propertiesUnready" := VObj 2%nat ]};
       1%nat := {[ "pause" := VFun 3%nat; "resume" := VFun 4%nat ]};
       2%nat := {[ "getIds" := VFun 5%nat; "process" := VFun 6%nat; "set" := VFun 7%nat ]};
       3%nat := ∅; 4%nat := ∅; 5%nat := ∅; 6%nat := ∅; 7%nat := ∅ ]}
    ∅ 0 ∅ false.

(** ** Notions the statements use *)

(** [v] is a reference to the object at [r]. *)
Definition refers (v : val) (r : loc) : Prop := v = VObj r ∨ v = VFun r.

Global Instance refers_dec v r : Decision (refers v r).
Proof. unfold refers. apply _. Defined.

(** The pending entry [i] as seen in the invocation log. *)
Definition fired (i : Z) (w : World) : list Invocation :=
  filter (λ inv, inv_entry inv = Some i) (calls w).

(** The state of the entry [i] along a run: not fired yet and pending
    with [cb], or fired once, with [cb], and gone. *)
Definition entry_state (i : Z) (cb : val) (w : World) : Prop :=
  (fired i w = [] ∧ _propertiesUnready (js w) !! i = Some cb)
  ∨ (∃ inv, fired i w = [inv] ∧ inv_cb inv = cb ∧ _propertiesUnready (js w) !! i = None).

(** What holds of the entry [i] also when its callback throws: it has
    been fired with [cb] only, and it is pending with [cb] or gone. *)
Definition entry_callback (i : Z) (cb : val) (w : World) : Prop :=
  Forall (λ inv, inv_cb inv = cb) (fired i w)
  ∧ (_propertiesUnready (js w) !! i = Some cb ∨ _propertiesUnready (js w) !! i = None).

(** Code that neither schedules nor fires the pending entry [i]. *)
Definition leaves_entry (i : Z) (g : State → State) : Prop :=
  ∀ st, _propertiesUnready (g st) !! i = _propertiesUnready st !! i.

(** Every registered id has been issued by the counter. *)
Definition ids_issued (st : State) : Prop :=
  0 ≤ _i st ∧ ∀ n, is_Some (_properties st !! n) → 0 ≤ n < _i st.

(** The own field [k] of the object at [l]. *)
Definition field (h : heapT) (l : loc) (k : string) : option val :=
  h !! l ≫= (.!! k).

(** The object at [l] has kept the path and the context it was given. *)
Definition keeps_identity (h1 h2 : heapT) (l : loc) : Prop :=
  field h2 l "path" = field h1 l "path" ∧ field h2 l "context" = field h1 l "context".

Section notions.
Context {host : Host}.

(** No object of the heap, and no prototype, holds a reference to [r]:
    the object at [r] is out of reach of a walk that does not start at it. *)
Definition hidden (r : loc) (h : heapT) : Prop :=
  map_Forall (λ _ (o : gmap string val), map_Forall (λ _ v, ¬ refers v r) o) h ∧
  (∀ v k, ¬ refers (inherited v k) r).

(** Every read that yields a value in [h] yields the same value in [h']. *)
Definition grows (h h' : heapT) : Prop :=
  ∀ v k x, get_prop h v k = Some x → x ≠ VUndef → get_prop h' v k = Some x.

(** Following the segments from [v], a [null] is met while a segment is
    still to be read. *)
Inductive reaches_null (h : heapT) : val → list string → Prop :=
| reaches_null_here k rest : reaches_null h VNull (k :: rest)
| reaches_null_step v k rest p :
    get_prop h v k = Some p → p ≠ VUndef →
    reaches_null h p rest → reaches_null h v (k :: rest).

(** Following the segments from [v], a read throws: every read before it
    has given a value, which the walk has followed. *)
Inductive reaches_throw (h : heapT) : val → list string → Prop :=
| reaches_throw_here v k rest : get_prop h v k = None → reaches_throw h v (k :: rest)
| reaches_throw_step v k rest p :
    get_prop h v k = Some p → p ≠ VUndef →
    reaches_throw h p rest → reaches_throw h v (k :: rest).

(** The entries whose callback, called in this log, has returned. *)
Definition returned_ids (log : list Invocation) : list Z :=
  omap (λ inv, if fn_throws (inv_cb inv) (inv_arg inv) (inv_before inv)
               then None else inv_entry inv) log.

(** A run of the engine: before each tick, other code changes the state. *)
Fixpoint run_ticks (envs : list (State → State)) (w : World) : World :=
  match envs with
  | [] => w
  | env :: rest =>
      run_ticks rest (state_of (PropertiesUnready.process (mkWorld (env (js w)) (calls w))))
  end.
End notions.

(** ** Hosts and states of the worked examples *)

(** No inherited property, no read that throws, callbacks without effect
    that return. *)
Definition plain_host : Host :=
  {| inherited := λ _ _, VUndef; read_throws := λ _ _, false;
     run_fn := λ _ _ st, st; fn_throws := λ _ _ _, false |}.

(** [var mock = {}] at location 10, and two function objects. *)
Definition mock : val := VObj 10%nat.
Definition cb1 : val := VFun 20%nat.
Definition cb2 : val := VFun 21%nat.

Definition st_mock (o : gmap string val) : State :=
  with_heap (<[10%nat := o]> (<[20%nat := ∅]> (<[21%nat := ∅]> (heap init)))) init.

(** [mock.k = x], done by code outside the module. *)
Definition assign (target : val) (k : string) (x : val) (st : State) : State :=
  match set_prop (heap st) target k x with
  | Some h => with_heap h st
  | None => st
  end.

(** The callback [cb1] schedules [cb2] for id 0 again, as
    [function () { ww._propertiesUnready.set(0, cb2); }]. *)
Definition resched_host : Host :=
  {| inherited := λ _ _, VUndef; read_throws := λ _ _, false;
     run_fn := λ f _ st,
       if decide (f = cb1) then (PropertiesUnready.set (VNum 0) cb2 st).2 else st;
     fn_throws := λ _ _ _, false |}.


(** A host in which the function objects of [init], [Ww] first, are the
    strict-mode functions they are in the source: reading their
    ['caller'] or ['arguments'] throws. *)
Definition strict_host : Host :=
  {| inherited := λ _ _, VUndef;
     read_throws := λ v k,
       bool_decide (v ∈ [VObj Ww_loc; VObj 3%nat; VObj 4%nat; VObj 5%nat;
                         VObj 6%nat; VObj 7%nat])
       && bool_decide (k = "caller" ∨ k = "arguments");
     run_fn := λ _ _ st, st; fn_throws := λ _ _ _, false |}.

Definition value_of {S} (o : outcome S val) : val :=
  match o with Ok v _ => v | TypeError _ => VUndef end.

Section scenario.
Context {host : Host}.

(** [var s = ww('a', mock); s.ready(cb1); mock.a = 42; process();] on
    [mock = {}]. *)
Definition sc_access : outcome State val := Ww (VStr "a") mock (st_mock ∅).

Definition sc_ready : World :=
  state_of (ww.ready (value_of sc_access) cb1 (mkWorld (state_of sc_access) [])).

Definition sc_before_tick : World :=
  mkWorld (assign mock "a" (VNum 42) (js sc_ready)) (calls sc_ready).

Definition sc_tick : World := state_of (PropertiesUnready.process sc_before_tick).
End scenario.

(** ** Further notions *)

(** Every reference that [v] holds is to an object of the heap. *)
Definition allocated (h : heapT) (v : val) : Prop :=
  ∀ r, refers v r → is_Some (h !! r).

(** Every pending id has a registered record. *)
Definition pending_registered (st : State) : Prop :=
  ∀ i, is_Some (_propertiesUnready st !! i) → is_Some (_properties st !! i).

(** The entries that the calls of a log have fired. *)
Definition fired_ids (log : list Invocation) : list Z := omap inv_entry log.

Section further_notions.
Context {host : Host}.

(** No object and no prototype refers to a location that is free. *)
Definition no_dangling (h : heapT) : Prop :=
  ∀ l, h !! l = None → hidden l h.

(** The entry [i], if pending, has a record whose path does not resolve
    now. *)
Definition idle_entry (st : State) (i : Z) : Prop :=
  is_Some (_propertiesUnready st !! i) →
  ∃ r s c,
    _properties st !! i = Some r
    ∧ get_prop (heap st) (VObj r) "path" = Some (VStr s)
    ∧ get_prop (heap st) (VObj r) "context" = Some c
    ∧ walk false VUndef (split_on dot s) c (heap st) = Ok VUndef (heap st).

(** The entry [i] is pending with the function [cb], and the path of its
    record [r] resolves to the value [v] now. *)
Definition resolved_entry (st : State) (i : Z) (cb : val) (r : loc) (v : val) : Prop :=
  _propertiesUnready st !! i = Some cb
  ∧ is_function cb = true
  ∧ _properties st !! i = Some r
  ∧ v ≠ VUndef
  ∧ ∃ s c,
      get_prop (heap st) (VObj r) "path" = Some (VStr s)
      ∧ get_prop (heap st) (VObj r) "context" = Some c
      ∧ walk false VUndef (split_on dot s) c (heap st) = Ok v (heap st).

(** The entry [i] is pending and the walk of its record reads through
    [null]. *)
Definition poisoned_entry (st : State) (i : Z) : Prop :=
  is_Some (_propertiesUnready st !! i)
  ∧ ∃ r s c,
      _properties st !! i = Some r
      ∧ get_prop (heap st) (VObj r) "path" = Some (VStr s)
      ∧ get_prop (heap st) (VObj r) "context" = Some c
      ∧ reaches_null (heap st) c (split_on dot s).

(** The timer of [Interval]: [_callback] runs, then arms the timer again
    (line 106), which a throw in [process] prevents. *)
Fixpoint timer_fires (n : nat) (w : World) : outcome World unit :=
  match n with
  | O => Ok tt w
  | S n' =>
      match Interval._callback w with
      | Ok _ w' => timer_fires n' w'
      | TypeError w' => TypeError w'
      end
  end.
End further_notions.

(** The check behind [allocated], and a heap all of whose fields pass it. *)
Definition allocated_b (h : heapT) (v : val) : bool :=
  match v with
  | VObj l | VFun l => bool_decide (is_Some (h !! l))
  | _ => true
  end.

Definition closed_heap (h : heapT) : Prop :=
  map_Forall (λ _ (o : gmap string val), map_Forall (λ _ v, allocated_b h v = true) o) h.

(** [mock = {a: {}}], the inner object at location 11. *)
Definition st_nested : State :=
  with_heap (<[11%nat := ∅]> (heap (st_mock {[ "a" := VObj 11%nat ]}))) init.

Section scenario_null.
Context {host : Host}.

(** [var s = ww('a.b', mock); s.ready(cb1); mock.a = null;] on
    [mock = {}]. *)
Definition sc_null_access : outcome State val := Ww (VStr "a.b") mock (st_mock ∅).

Definition sc_null_pending : World :=
  let w := state_of (ww.ready (value_of sc_null_access) cb1
                       (mkWorld (state_of sc_null_access) [])) in
  mkWorld (assign mock "a" VNull (js w)) (calls w).
End scenario_null.

(** A caller without effect. *)
Definition plain_caller : Caller :=
  {| apply_fn := λ _ _ _ st, st; apply_throws := λ _ _ _ _, false |}.

(** A caller that leaves in [mock.count] how many arguments it got. *)
Definition counting_caller : Caller :=
  {| apply_fn := λ _ _ args st, assign mock "count" (VNum (Z.of_nat (length args))) st;
     apply_throws := λ _ _ _ _, false |}.

(** Closed statements about the worked examples are settled by running
    the model. *)
Ltac by_running := repeat split; vm_compute; reflexivity.

(** * Properties *)

(** ** Basic facts *)

Lemma is_undefined_true v : is_undefined v = true ↔ v = VUndef.
Proof. destruct v; unfold is_undefined; simpl; split; intros; try done; by case_bool_decide. Qed.

Lemma is_undefined_false v : is_undefined v = false ↔ v ≠ VUndef.
Proof.
  rewrite <- is_undefined_true. destruct (is_undefined v); split; congruence.
Qed.

Lemma is_function_true v : is_function v = true ↔ ∃ l, v = VFun l.
Proof.
  destruct v; unfold is_function; simpl; split; intros H; try done;
    try (by destruct H); eauto.
Qed.

Section basics.
Context {host : Host}.

Lemma get_prop_tag h l k : get_prop h (VFun l) k = get_prop h (VObj l) k.
Proof. reflexivity. Qed.

Lemma get_prop_ref h v r k : refers v r →
  get_prop h v k
  = match field h r k with
    | Some x => Some x
    | None => if read_throws (VObj r) k then None else Some (inherited (VObj r) k)
    end.
Proof. by intros [-> | ->]. Qed.

(** The reads that throw: those through [undefined] or [null], and those
    of a property that is not an own property and that the host makes
    throw. *)
Lemma get_prop_None h v k :
  get_prop h v k = None
  ↔ v = VUndef ∨ v = VNull
    ∨ (read_throws (match v with VFun l => VObj l | _ => v end) k = true
       ∧ ∀ l, refers v l → field h l k = None).
Proof.
  destruct v as [| |b|n|s|l|l]; simpl; try (split; [by left + (right; left)|done]).
  - split; [|by intros [|[|[-> _]]]].
    destruct (read_throws _ _); [|done]. intros _. right; right.
    split; [done|]. by intros l [|].
  - split; [|by intros [|[|[-> _]]]].
    destruct (read_throws _ _); [|done]. intros _. right; right.
    split; [done|]. by intros l [|].
  - split; [|by intros [|[|[-> _]]]].
    destruct (read_throws _ _); [|done]. intros _. right; right.
    split; [done|]. by intros l [|].
  - fold (field h l k). destruct (field h l k) as [x|] eqn:Hx.
    + split; [done|]. intros [|[|[_ Hl]]]; try done. by rewrite Hl in Hx; [|left].
    + destruct (read_throws _ _); split; try done.
      * intros _. right; right. split; [done|]. by intros l' [[= <-]|].
      * by intros [|[|[? _]]].
  - fold (field h l k). destruct (field h l k) as [x|] eqn:Hx.
    + split; [done|]. intros [|[|[_ Hl]]]; try done. by rewrite Hl in Hx; [|right].
    + destruct (read_throws _ _); split; try done.
      * intros _. right; right. split; [done|]. by intros l' [|[= <-]].
      * by intros [|[|[? _]]].
Qed.

Lemma set_prop_ref h v r k x : refers v r →
  set_prop h v k x = Some (<[r := <[k := x]> (default ∅ (h !! r))]> h).
Proof. by intros [-> | ->]. Qed.

Lemma set_prop_Some h v k x h' : set_prop h v k x = Some h' →
  ∃ r, refers v r ∧ h' = <[r := <[k := x]> (default ∅ (h !! r))]> h.
Proof. destruct v; simpl; intros; simplify_eq; eexists; split; eauto; by (left + right). Qed.

Lemma get_set_prop h v k x h' : set_prop h v k x = Some h' → get_prop h' v k = Some x.
Proof.
  intros (r & Hr & ->)%set_prop_Some. rewrite (get_prop_ref _ _ r) by done.
  unfold field. by rewrite lookup_insert_eq; simpl; rewrite lookup_insert_eq.
Qed.

(** Without an extension value the resolver only reads. *)
Lemma walk_read_only ev segs prev h : state_of (walk false ev segs prev h) = h.
Proof.
  revert prev; induction segs as [|k rest IH]; intros prev; simpl; [done|].
  destruct (get_prop h prev k) as [p|]; [|done].
  destruct (is_undefined p); [done|]. apply IH.
Qed.

Lemma walk_ok_intro ev segs prev h v :
  throws (walk false ev segs prev h) = false →
  value_of (walk false ev segs prev h) = v →
  walk false ev segs prev h = Ok v h.
Proof.
  pose proof (walk_read_only ev segs prev h) as Hro.
  destruct (walk false ev segs prev h); simpl in *; congruence.
Qed.

Lemma _getProperty_read_only path context h :
  state_of (_getProperty path context VUndef h) = h.
Proof. destruct path; simpl; try done. apply walk_read_only. Qed.
End basics.

(** ** The resolver on worked inputs *)

Lemma outcome_ok {S} (o : outcome S val) v :
  throws o = false → value_of o = v → o = Ok v (state_of o).
Proof. destruct o; simpl; congruence. Qed.

(** C2, on the code: with [mock = {}] and an empty object [e] as extension
    value, [_getProperty('a.b', mock, e)] stores [e] itself under the
    missing non-final segment [a] (no fresh container is created: the heap
    has the same objects as before), then stores [e] under [b] inside [e];
    with the extension value [true] the second store is an assignment to a
    property of a boolean, a TypeError in strict mode, and [mock.a] is left
    holding [true]. *)
Lemma C2_missing_segments_all_get_extendValue :
  let h := <[11%nat := ∅]> (heap (st_mock ∅)) in
  let out := @_getProperty plain_host (VStr "a.b") mock (VObj 11%nat) h in
  let out' := @_getProperty plain_host (VStr "a.b") mock (VBool true) h in
  (throws out = false ∧ value_of out = VObj 11%nat
   ∧ field (state_of out) 10%nat "a" = Some (VObj 11%nat)
   ∧ field (state_of out) 11%nat "b" = Some (VObj 11%nat)
   ∧ dom (state_of out) = dom h)
  ∧ (throws out' = true ∧ field (state_of out') 10%nat "a" = Some (VBool true)).
Proof. by_running. Qed.

(** C5, on the code: [ww('a.b', mock).extend(true)] on [mock = {}] throws
    instead of creating the chain; [mock.a] holds [true] afterwards and a
    later [ww('a.b', mock).getValue()] is [undefined]. *)
Lemma C5_extend_chain_throws :
  let acc := @Ww plain_host (VStr "a.b") mock (st_mock ∅) in
  let ext := @ww.extend plain_host (value_of acc) (VBool true) (state_of acc) in
  let acc' := @Ww plain_host (VStr "a.b") mock (state_of ext) in
  let get := @ww.getValue plain_host (value_of acc') VUndef (state_of acc') in
  throws acc = false ∧ throws ext = true
  ∧ field (heap (state_of ext)) 10%nat "a" = Some (VBool true)
  ∧ throws acc' = false ∧ throws get = false ∧ value_of get = VUndef.
Proof. by_running. Qed.

(** C3 fails as stated: after [var s = ww('a', mock); s.extend(true)] the
    call has returned [true], yet the registered record of id 0 still has
    the value [undefined] and the type ['undefined']: a lookup by id shows
    them. *)
Lemma C3_extend_does_not_update_record :
  let acc := @Ww plain_host (VStr "a") mock (st_mock ∅) in
  let ext := @ww.extend plain_host (value_of acc) (VBool true) (state_of acc) in
  let acc' := @Ww plain_host (VNum 0) VUndef (state_of ext) in
  throws acc = false ∧ throws ext = false ∧ value_of ext = VBool true
  ∧ throws acc' = false
  ∧ @get_prop plain_host (heap (state_of acc')) (value_of acc') "value" = Some VUndef
  ∧ @get_prop plain_host (heap (state_of acc')) (value_of acc') "type"
    = Some (VStr "undefined").
Proof. by_running. Qed.

(** C8 fails as stated: [ww('a', null)] keeps [null] as its context
    ([typeof null] is ['object']) and throws on the first read; and
    [ww('a.b', mock)] throws when [mock.a] is [null]. *)
Lemma C8_access_throws_on_null :
  _getContext VNull = VNull
  ∧ throws (@Ww plain_host (VStr "a") VNull (st_mock ∅)) = true
  ∧ throws (@Ww plain_host (VStr "a.b") mock (st_mock {[ "a" := VNull ]})) = true.
Proof. by_running. Qed.

(** C1 fails as stated: in the run [s.ready(cb1); mock.a = 42; process()]
    the engine calls [cb1] once, for the entry 0, in a state whose pending
    set still maps 0 to [cb1].  A callback that schedules [cb2] for the
    same id from inside that call loses it: the removal that follows the
    call deletes the new entry. *)
Lemma C1_callback_runs_while_pending :
  (map (λ inv, (inv_entry inv, inv_cb inv, _propertiesUnready (inv_before inv) !! 0))
       (calls (@sc_tick plain_host))
   = [(Some 0, cb1, Some cb1)])
  ∧ (map (λ inv, _propertiesUnready
                   (@run_fn resched_host (inv_cb inv) (inv_arg inv) (inv_before inv)) !! 0)
         (calls (@sc_tick resched_host))
     = [Some cb2])
  ∧ _propertiesUnready (js (@sc_tick resched_host)) !! 0 = None.
Proof. by_running. Qed.


(** ** The resolver writes only where a read gave [undefined] *)

Section resolver.
Context {host : Host}.

Lemma field_store h r k x r' k' :
  field (<[r := <[k := x]> (default ∅ (h !! r))]> h) r' k'
  = if decide (r = r' ∧ k = k') then Some x else field h r' k'.
Proof.
  unfold field. destruct (decide (r = r')) as [<-|Hr].
  - rewrite lookup_insert_eq; simpl. destruct (decide (k = k')) as [<-|Hk].
    + rewrite lookup_insert_eq. by rewrite decide_True.
    + rewrite lookup_insert_ne by done. rewrite decide_False by tauto.
      by destruct (h !! r).
  - rewrite lookup_insert_ne by done. by rewrite decide_False by tauto.
Qed.

Lemma grows_refl h : grows h h.
Proof. by intros v k x. Qed.

Lemma grows_trans h1 h2 h3 : grows h1 h2 → grows h2 h3 → grows h1 h3.
Proof. intros H12 H23 v k x Hx Hd. eauto. Qed.

(** A store made where the read gave [undefined] keeps every defined read. *)
Lemma set_prop_grows h v k x h' :
  get_prop h v k = Some VUndef → set_prop h v k x = Some h' → grows h h'.
Proof.
  intros Hget (r & Hr & ->)%set_prop_Some v' k' y Hy Hd.
  rewrite (get_prop_ref _ _ r) in Hget by done.
  assert (∀ l, refers v' l →
            get_prop (<[r:=<[k:=x]> (default ∅ (h !! r))]> h) v' k' = Some y) as Hl.
  { intros l Hv'. rewrite (get_prop_ref h _ l) in Hy by done.
    rewrite (get_prop_ref _ _ l) by done.
    rewrite field_store; case_decide as Hc; [|done].
    destruct Hc as [-> ->]; congruence. }
  destruct v' as [| | | | |l|l]; try done; apply (Hl l); by (left + right).
Qed.

Lemma walk_grows b ev segs prev h : grows h (state_of (walk b ev segs prev h)).
Proof.
  revert prev h; induction segs as [|k rest IH]; intros prev h; simpl;
    [apply grows_refl|].
  destruct (get_prop h prev k) as [p|] eqn:Hget; [|apply grows_refl].
  destruct (is_undefined p) eqn:Hp; [|apply IH].
  apply is_undefined_true in Hp as ->.
  destruct b; [|apply grows_refl].
  destruct (set_prop h prev k ev) as [h'|] eqn:Hset; [|apply grows_refl].
  rewrite (get_set_prop _ _ _ _ _ Hset).
  eapply grows_trans; [by eapply set_prop_grows|apply IH].
Qed.

(** A path that resolves keeps resolving, to the same value, in a heap
    that has grown. *)
Lemma walk_stable ev ev' segs prev h h' v :
  grows h h' → walk false ev segs prev h = Ok v h → v ≠ VUndef →
  walk false ev' segs prev h' = Ok v h'.
Proof.
  intros Hg; revert prev; induction segs as [|k rest IH]; intros prev; simpl.
  - by intros [= ->].
  - destruct (get_prop h prev k) as [p|] eqn:Hget; [|done].
    destruct (is_undefined p) eqn:Hp; [by intros [= <-]|].
    apply is_undefined_false in Hp. intros Hw Hv.
    rewrite (Hg _ _ _ Hget Hp). apply is_undefined_false in Hp as ->. eauto.
Qed.

(** On a path that resolves, the extension value is not used and nothing
    is written. *)
Lemma walk_resolved_extend ev ev' segs prev h v :
  walk false ev segs prev h = Ok v h → v ≠ VUndef →
  walk true ev' segs prev h = Ok v h.
Proof.
  revert prev; induction segs as [|k rest IH]; intros prev; simpl; [done|].
  destruct (get_prop h prev k) as [p|] eqn:Hget; [|done].
  destruct (is_undefined p) eqn:Hp; [by intros [= <-]|]. eauto.
Qed.

(** Once an extension has gone through, the path resolves to what the
    extension returned. *)
Lemma walk_extend_resolves ev ev' segs prev h v h' :
  ev ≠ VUndef → prev ≠ VUndef →
  walk true ev segs prev h = Ok v h' →
  v ≠ VUndef ∧ walk false ev' segs prev h' = Ok v h'.
Proof.
  intros Hev; revert prev h; induction segs as [|k rest IH]; intros prev h Hprev; simpl.
  - by intros [= -> ->].
  - destruct (get_prop h prev k) as [p|] eqn:Hget; [|done].
    destruct (is_undefined p) eqn:Hp.
    + apply is_undefined_true in Hp as ->.
      destruct (set_prop h prev k ev) as [h1|] eqn:Hset; [|done].
      pose proof (get_set_prop _ _ _ _ _ Hset) as Hget1. rewrite Hget1.
      intros Hw. destruct (IH _ _ Hev Hw) as [Hv Hw'].
      split; [done|].
      pose proof (walk_grows true ev rest ev h1) as Hg. rewrite Hw in Hg; simpl in Hg.
      rewrite (Hg _ _ _ Hget1 Hev).
      by apply is_undefined_false in Hev as ->.
    + apply is_undefined_false in Hp. intros Hw.
      destruct (IH _ _ Hp Hw) as [Hv Hw'].
      split; [done|].
      pose proof (walk_grows true ev rest p h) as Hg. rewrite Hw in Hg; simpl in Hg.
      rewrite (Hg _ _ _ Hget Hp).
      by apply is_undefined_false in Hp as ->.
Qed.

(** A missing segment that is not the last one receives the extension
    value itself, and keeps it to the end of the walk. *)
Lemma walk_missing_segment_gets_extendValue ev l k k' rest h :
  ev ≠ VUndef → get_prop h (VObj l) k = Some VUndef →
  get_prop (state_of (walk true ev (k :: k' :: rest) (VObj l) h)) (VObj l) k = Some ev.
Proof.
  intros Hev Hget. cbn [walk]. rewrite Hget. change (is_undefined VUndef) with true.
  cbv iota. destruct (set_prop h (VObj l) k ev) as [h1|] eqn:Hset; [|done].
  pose proof (get_set_prop _ _ _ _ _ Hset) as Hget1. rewrite Hget1.
  by apply (walk_grows true ev (k' :: rest) ev h1).
Qed.
End resolver.

(** ** Access by path *)

Lemma with_heap_id st : with_heap (heap st) st = st.
Proof. by destruct st. Qed.

Lemma _getContext_defined c : _getContext c ≠ VUndef.
Proof. by destruct c. Qed.

Lemma _getContext_default c :
  typeof c ≠ "object" → typeof c ≠ "function" → _getContext c = Ww_root.
Proof. by destruct c. Qed.

Section by_path.
Context {host : Host}.

(** A read-only walk throws exactly when one of its reads does. *)
Lemma walk_throws ev segs prev h :
  (reaches_throw h prev segs → walk false ev segs prev h = TypeError h)
  ∧ (¬ reaches_throw h prev segs → ∃ v, walk false ev segs prev h = Ok v h).
Proof.
  revert prev; induction segs as [|k rest IH]; intros prev; simpl.
  { split; [inversion 1|eauto]. }
  destruct (get_prop h prev k) as [p|] eqn:Hget.
  - destruct (is_undefined p) eqn:Hp.
    + apply is_undefined_true in Hp as ->. split; [|eauto].
      inversion 1; subst; simplify_eq.
    + apply is_undefined_false in Hp. destruct (IH p) as [IH1 IH2]. split.
      * inversion 1; subst; simplify_eq. eauto.
      * intros Hn. apply IH2. intros Hr. apply Hn. by eapply reaches_throw_step.
  - split; [done|]. intros []. by constructor.
Qed.

(** Reading through [null] is one way of reaching a read that throws. *)
Lemma reaches_null_throw h v segs : reaches_null h v segs → reaches_throw h v segs.
Proof.
  induction 1 as [k rest|v k rest p Hget Hp _ IH]; [by constructor|].
  by eapply reaches_throw_step.
Qed.

(** What [Ww] does with a path that resolves without throwing. *)
Lemma Ww_string_inv p c st l st1 :
  Ww (VStr p) c st = Ok (VObj l) st1 →
  ∃ v, walk false VUndef (split_on dot p) (_getContext c) (heap st) = Ok v (heap st)
    ∧ let r := fresh (dom (heap st)) in
      let o : gmap string val :=
        {[ "context" := _getContext c; "id" := VNum (_i st); "path" := VStr p;
           "type" := VStr (typeof v); "value" := v ]} in
      l = fresh (dom (<[r := o]> (heap st)))
      ∧ st1 = mkState (<[l := o]> (<[r := o]> (heap st)))
                      (<[_i st := r]> (_properties st)) (_i st + 1)
                      (_propertiesUnready st) (_isPaused st).
Proof.
  unfold Ww. destruct (blank p); [done|]. unfold _getProperty; simpl.
  pose proof (walk_read_only VUndef (split_on dot p) (_getContext c) (heap st)) as Hro.
  destruct (walk _ _ _ _ _) as [v h|h]; [|done]. simpl in Hro; subst h.
  unfold with_heap; simpl. rewrite lookup_insert_eq; simpl.
  intros [= <- <-]. by exists v.
Qed.

Lemma Ww_string_Ok p c st v :
  blank p = false →
  walk false VUndef (split_on dot p) (_getContext c) (heap st) = Ok v (heap st) →
  ∃ l st1, Ww (VStr p) c st = Ok (VObj l) st1.
Proof.
  intros Hb Hw. unfold Ww. rewrite Hb. unfold _getProperty; simpl. rewrite Hw.
  unfold _Property.new, ww.new; simpl. eauto.
Qed.

(** C8, amended.  For every non-blank path and every context argument
    other than [null]: a context whose [typeof] is neither ['object'] nor
    ['function'] is replaced by the root [Ww]; the call throws exactly
    when a read of the walk throws, and returns a wrapper otherwise.  A
    read throws when it is made on [null], or on a property that is not
    an own property and that the host makes throw, as ['caller'] and
    ['arguments'] of a strict-mode function. *)
Theorem C8_access_throws_where_a_read_throws st p c :
  blank p = false →
  c ≠ VNull →
  (typeof c ≠ "object" → typeof c ≠ "function" →
     Ww (VStr p) c st = Ww (VStr p) Ww_root st)
  ∧ _getContext c ≠ VNull ∧ _getContext c ≠ VUndef
  ∧ (reaches_throw (heap st) (_getContext c) (split_on dot p) →
     Ww (VStr p) c st = TypeError st)
  ∧ (¬ reaches_throw (heap st) (_getContext c) (split_on dot p) →
     ∃ l st1, Ww (VStr p) c st = Ok (VObj l) st1)
  ∧ (∀ v k, v ≠ VUndef →
       get_prop (heap st) v k = None
       ↔ v = VNull
         ∨ (read_throws (match v with VFun l => VObj l | _ => v end) k = true
            ∧ ∀ l, refers v l → field (heap st) l k = None)).
Proof.
  intros Hb Hc.
  destruct (walk_throws VUndef (split_on dot p) (_getContext c) (heap st))
    as [Hthrow Hok].
  split; [|split; [|split; [|split; [|split]]]].
  - intros Ho Hf. unfold Ww. rewrite Hb. by rewrite (_getContext_default c).
  - by destruct c.
  - apply _getContext_defined.
  - intros Hn. unfold Ww. rewrite Hb. unfold _getProperty; simpl.
    rewrite (Hthrow Hn). by rewrite with_heap_id.
  - intros Hn. destruct (Hok Hn) as [v Hv]. by eapply Ww_string_Ok.
  - intros v k Hv. rewrite get_prop_None. split.
    + intros [?|[?|?]]; [done|by left|by right].
    + intros [?|?]; [right; by left|right; by right].
Qed.
End by_path.

(** C8 where the functions are strict-mode functions: [ww('caller', 5)]
    is [ww('caller')] on the root [Ww], and it throws without meeting
    [null]; so does [ww('_interval.pause.arguments')]. *)
Lemma C8_access_throws_where_a_read_throws_witness :
  blank "caller" = false ∧ VNum 5 ≠ VNull
  ∧ @Ww strict_host (VStr "caller") (VNum 5) (st_mock ∅)
    = @Ww strict_host (VStr "caller") Ww_root (st_mock ∅)
  ∧ @Ww strict_host (VStr "caller") (VNum 5) (st_mock ∅) = TypeError (st_mock ∅)
  ∧ @Ww strict_host (VStr "_interval.pause.arguments") VUndef (st_mock ∅)
    = TypeError (st_mock ∅)
  ∧ ∃ l st1, @Ww strict_host (VStr "_interval.pause") VUndef (st_mock ∅) = Ok (VObj l) st1.
Proof.
  split; [reflexivity|]. split; [discriminate|].
  destruct (@C8_access_throws_where_a_read_throws strict_host (st_mock ∅) "caller" (VNum 5)
              eq_refl ltac:(discriminate)) as (Hroot & _ & _ & Hthrow & _).
  split; [apply Hroot; discriminate|].
  split; [apply Hthrow; constructor; vm_compute; reflexivity|].
  destruct (@C8_access_throws_where_a_read_throws strict_host (st_mock ∅)
              "_interval.pause.arguments" VUndef eq_refl ltac:(discriminate))
    as (_ & _ & _ & Hthrow' & _).
  destruct (@C8_access_throws_where_a_read_throws strict_host (st_mock ∅)
              "_interval.pause" VUndef eq_refl ltac:(discriminate))
    as (_ & _ & _ & _ & Hok & _).
  split.
  - apply Hthrow'. change (split_on dot "_interval.pause.arguments")
      with ["_interval"; "pause"; "arguments"].
    apply (reaches_throw_step _ _ _ _ (VObj 1%nat)); [vm_compute; reflexivity|discriminate|].
    apply (reaches_throw_step _ _ _ _ (VFun 3%nat)); [vm_compute; reflexivity|discriminate|].
    constructor. vm_compute. reflexivity.
  - apply Hok. change (split_on dot "_interval.pause") with ["_interval"; "pause"].
    intros Hr. inversion Hr as [? ? ? Hg|? ? ? q Hg Hq Hr']; subst.
    + vm_compute in Hg. discriminate Hg.
    + assert (q = VObj 1%nat) as -> by (vm_compute in Hg; congruence).
      inversion Hr' as [? ? ? Hg'|? ? ? q' Hg' Hq' Hr'']; subst.
      * vm_compute in Hg'. discriminate Hg'.
      * inversion Hr''.
Defined.

(** ** Wrappers are copies *)

Lemma fresh_lookup {A} (h : gmap nat A) : h !! fresh (dom h) = None.
Proof. apply not_elem_of_dom, is_fresh. Qed.

Section wrappers.
Context {host : Host}.

(** Where the record and the wrapper of a new access live: two distinct
    locations that were free, holding the same fields. *)
Lemma Ww_string_layout p c st l st1 :
  Ww (VStr p) c st = Ok (VObj l) st1 →
  ∃ r o,
    heap st !! r = None ∧ heap st !! l = None ∧ r ≠ l
    ∧ heap st1 = <[l := o]> (<[r := o]> (heap st))
    ∧ _properties st1 = <[_i st := r]> (_properties st)
    ∧ _i st1 = _i st + 1
    ∧ _propertiesUnready st1 = _propertiesUnready st
    ∧ o !! "path" = Some (VStr p)
    ∧ o !! "context" = Some (_getContext c)
    ∧ o !! "id" = Some (VNum (_i st))
    ∧ ∃ v, walk false VUndef (split_on dot p) (_getContext c) (heap st) = Ok v (heap st)
           ∧ o !! "type" = Some (VStr (typeof v)) ∧ o !! "value" = Some v.
Proof.
  intros (v & Hw & Hl & ->)%Ww_string_inv. simpl in *.
  set (r := fresh (dom (heap st))) in *.
  set (o := ({[ "context" := _getContext c; "id" := VNum (_i st); "path" := VStr p;
                "type" := VStr (typeof v); "value" := v ]} : gmap string val)) in *.
  assert (heap st !! r = None) as Hr by apply fresh_lookup.
  assert (<[r := o]> (heap st) !! l = None) as Hl' by (rewrite Hl; apply fresh_lookup).
  assert (r ≠ l) as Hne by (intros <-; by rewrite lookup_insert_eq in Hl').
  rewrite lookup_insert_ne in Hl' by done.
  exists r, o. repeat split; try done. exists v. by repeat split.
Qed.

Lemma Ww_number n c st r :
  _properties st !! n = Some r →
  Ww (VNum n) c st
  = Ok (VObj (fresh (dom (heap st))))
       (with_heap (<[fresh (dom (heap st)) := default ∅ (heap st !! r)]> (heap st)) st).
Proof. intros Hr. unfold Ww. by rewrite Hr. Qed.

Lemma Ww_number_absent n c st :
  _properties st !! n = None → Ww (VNum n) c st = Ok VUndef st.
Proof. intros Hr. unfold Ww. by rewrite Hr. Qed.

(** A wrapper that was put at a free location, as a copy of the record
    [r]: assigning one of its fields changes no object that existed before
    and leaves the record as the wrapper was. *)
Lemma wrapper_isolated st st1 h1 l r o i k x :
  heap st1 = <[l := o]> h1 → h1 !! l = None → h1 !! r = Some o →
  (∀ l', l' ∈ dom (heap st) → h1 !! l' = heap st !! l') →
  _properties st1 !! i = Some r →
  let st2 := assign (VObj l) k x st1 in
  (∀ l', l' ∈ dom (heap st) → heap st2 !! l' = heap st !! l')
  ∧ _properties st2 !! i = Some r ∧ r ≠ l ∧ heap st2 !! r = heap st1 !! l
  ∧ ∀ c', ∃ l' st3,
      Ww (VNum i) c' st2 = Ok (VObj l') st3
      ∧ heap st2 !! l' = None
      ∧ heap st3 !! l' = heap st1 !! l.
Proof.
  intros Hh Hl Hr Hold Hreg st2.
  assert (r ≠ l) as Hne by congruence.
  assert (heap st2 = <[l := <[k := x]> o]> (<[l := o]> h1)) as Hh2.
  { unfold st2, assign; simpl. rewrite Hh. by rewrite lookup_insert_eq. }
  assert (heap st2 !! r = Some o) as Hrec by (by rewrite Hh2, !lookup_insert_ne).
  assert (heap st1 !! l = Some o) as Hsnap by (rewrite Hh; apply lookup_insert_eq).
  assert (_properties st2 !! i = Some r) as Hreg2 by done.
  clearbody st2. split; [|split; [done|split; [done|split]]].
  - intros l' Hin. rewrite Hh2.
    assert (l ≠ l') as Hll by (intros <-; apply elem_of_dom in Hin as [? Hin];
                                rewrite <- Hold, Hl in Hin by (by apply elem_of_dom); done).
    rewrite !lookup_insert_ne by done. by apply Hold.
  - by rewrite Hrec, Hsnap.
  - intros c'. rewrite (Ww_number _ _ _ _ Hreg2). do 2 eexists. split; [done|].
    split; [apply fresh_lookup|]. simpl. by rewrite lookup_insert_eq, Hrec, Hsnap.
Qed.

(** C7.  Let [l] be the wrapper returned by [ww(p, c)] or by [ww(id)],
    and let a field of it be assigned.  Every object that existed before
    the access is unchanged, so reads of the context graph give what they
    gave; the registered record still has the fields the wrapper had when
    it was returned, and a fresh [ww(id)] is a copy of exactly those
    fields. *)
Theorem C7_snapshot_isolation a c st l st1 k x :
  Ww a c st = Ok (VObj l) st1 →
  (∀ n r, a = VNum n → _properties st !! n = Some r → is_Some (heap st !! r)) →
  let st2 := assign (VObj l) k x st1 in
  (∀ l', l' ∈ dom (heap st) → heap st2 !! l' = heap st !! l')
  ∧ (∀ l' k', l' ∈ dom (heap st) →
       get_prop (heap st2) (VObj l') k' = get_prop (heap st) (VObj l') k')
  ∧ ∃ i r,
      (a = VNum i ∨ ∃ p, a = VStr p ∧ i = _i st)
      ∧ _properties st2 !! i = Some r ∧ r ≠ l
      ∧ heap st2 !! r = heap st1 !! l
      ∧ ∀ c', ∃ l' st3,
          Ww (VNum i) c' st2 = Ok (VObj l') st3
          ∧ heap st2 !! l' = None
          ∧ heap st3 !! l' = heap st1 !! l.
Proof.
  intros Hacc Halloc st2.
  assert (∃ i r o h1,
            (a = VNum i ∨ ∃ p, a = VStr p ∧ i = _i st)
            ∧ heap st1 = <[l := o]> h1 ∧ h1 !! l = None ∧ h1 !! r = Some o
            ∧ (∀ l', l' ∈ dom (heap st) → h1 !! l' = heap st !! l')
            ∧ _properties st1 !! i = Some r) as (i & r & o & h1 & Hi & Hh & Hl & Hr & Hold & Hreg).
  { destruct a as [| | |n|p| |]; try done.
    - unfold Ww in Hacc. destruct (_properties st !! n) as [r|] eqn:Hn; [|done].
      destruct (Halloc n r eq_refl Hn) as [o Ho]. unfold ww.new in Hacc.
      injection Hacc as <- <-. exists n, r, o, (heap st). cbn [heap with_heap].
      rewrite Ho. repeat split; eauto using fresh_lookup.
    - destruct (Ww_string_layout _ _ _ _ _ Hacc) as (r & o & Hr & Hl & Hne & Hh & Hp & _).
      exists (_i st), r, o, (<[r := o]> (heap st)). split; [eauto|].
      split; [done|]. split; [by rewrite lookup_insert_ne|].
      split; [apply lookup_insert_eq|]. split; [|rewrite Hp; apply lookup_insert_eq].
      intros l' [o' Ho']%elem_of_dom. rewrite lookup_insert_ne; [done|congruence]. }
  destruct (wrapper_isolated st st1 h1 l r o i k x Hh Hl Hr Hold Hreg)
    as (H1 & H2 & H3 & H4 & H5). fold st2 in H1, H2, H4, H5. clearbody st2.
  split; [done|]. split.
  - intros l' k' Hin. unfold get_prop. by rewrite (H1 l' Hin).
  - by exists i, r.
Qed.

Lemma get_prop_field h l k x : field h l k = Some x → get_prop h (VObj l) k = Some x.
Proof. unfold get_prop, field. by intros ->. Qed.

Lemma field_allocated h l k x : field h l k = Some x → is_Some (h !! l).
Proof. unfold field. destruct (h !! l); [eauto|done]. Qed.

Lemma ids_issued_init : ids_issued init.
Proof. split; [done|]. intros n [x Hx]. simpl in Hx. by rewrite lookup_empty in Hx. Qed.

(** Access keeps the registry within the ids issued so far. *)
Lemma Ww_ids_issued a c st : ids_issued st → ids_issued (state_of (Ww a c st)).
Proof.
  intros [H0 Hreg]. unfold Ww. destruct a as [| | |n|p| |]; simpl; try done.
  - destruct (_properties st !! n); done.
  - destruct (blank p); [done|].
    destruct (walk _ _ _ _ _) as [v h|h]; simpl; [|done].
    split; simpl; [lia|]. intros n [r Hn].
    destruct (decide (_i st = n)) as [<-|Hne]; [lia|].
    rewrite lookup_insert_ne in Hn by done. specialize (Hreg n (ex_intro _ r Hn)). lia.
Qed.

(** C6.  Let [ww(p, c)] return the wrapper [l1], with the id [_i st].  In
    any later state in which the record and [l1] still carry their path
    and context, [ww(id)] creates no record (registry and counter are
    unchanged), returns a wrapper at a location that was free, and
    [getValue] on it is [getValue] on [l1], whatever both now are.  An id
    below 0 or not issued yet yields [undefined] and changes nothing. *)
Theorem C6_access_by_id p c st l1 st1 :
  Ww (VStr p) c st = Ok (VObj l1) st1 →
  ids_issued st →
  (∀ st2 c2 d,
     (∀ r, _properties st1 !! _i st = Some r →
           _properties st2 !! _i st = Some r ∧ keeps_identity (heap st1) (heap st2) r) →
     keeps_identity (heap st1) (heap st2) l1 →
     ∃ l2 st3,
       Ww (VNum (_i st)) c2 st2 = Ok (VObj l2) st3
       ∧ heap st2 !! l2 = None
       ∧ _properties st3 = _properties st2 ∧ _i st3 = _i st2
       ∧ ww.getValue (VObj l2) d st3 = ww.getValue (VObj l1) d st3)
  ∧ (∀ n c', n < 0 ∨ _i st1 ≤ n → Ww (VNum n) c' st1 = Ok VUndef st1)
  ∧ ids_issued st1.
Proof.
  intros Hacc Hids.
  pose proof (Ww_ids_issued (VStr p) c st Hids) as Hids1. rewrite Hacc in Hids1; simpl in Hids1.
  destruct (Ww_string_layout _ _ _ _ _ Hacc)
    as (r & o & Hr & Hl & Hne & Hh & Hp & Hi & _ & Hpath & Hctx & _).
  split; [|split; [|done]].
  - intros st2 c2 d Hrec [Hp1 Hc1].
    destruct (Hrec r) as (Hreg & Hpr & Hcr); [rewrite Hp; apply lookup_insert_eq|].
    assert (∀ k, field (heap st1) l1 k = o !! k) as Hf1.
    { intros k. unfold field. by rewrite Hh, lookup_insert_eq. }
    assert (∀ k, field (heap st1) r k = o !! k) as Hfr.
    { intros k. unfold field.
      by rewrite Hh, lookup_insert_ne, lookup_insert_eq by done. }
    rewrite Hf1, Hpath in Hp1. rewrite Hf1, Hctx in Hc1.
    rewrite Hfr, Hpath in Hpr. rewrite Hfr, Hctx in Hcr.
    rewrite (Ww_number _ _ _ _ Hreg). set (l2 := fresh (dom (heap st2))).
    assert (heap st2 !! l2 = None) as Hl2 by apply fresh_lookup.
    destruct (field_allocated _ _ _ _ Hp1) as [o1 Ho1].
    destruct (field_allocated _ _ _ _ Hpr) as [o2 Ho2].
    assert (l2 ≠ l1) as Hne2 by congruence.
    do 2 eexists. split; [done|]. split; [done|]. split; [done|]. split; [done|].
    unfold ww.getValue. cbn [heap with_heap].
    assert (∀ k x, field (heap st2) r k = Some x →
              get_prop (<[l2 := default ∅ (heap st2 !! r)]> (heap st2)) (VObj l2) k = Some x) as G2.
    { intros k x Hx. apply get_prop_field. unfold field in *.
      by rewrite lookup_insert_eq, Ho2 in *. }
    assert (∀ k x, field (heap st2) l1 k = Some x →
              get_prop (<[l2 := default ∅ (heap st2 !! r)]> (heap st2)) (VObj l1) k = Some x) as G1.
    { intros k x Hx. apply get_prop_field. unfold field in *.
      by rewrite lookup_insert_ne by done. }
    by rewrite (G2 _ _ Hpr), (G2 _ _ Hcr), (G1 _ _ Hp1), (G1 _ _ Hc1).
  - intros n c' Hn. apply Ww_number_absent.
    destruct (_properties st1 !! n) as [x|] eqn:Hx; [|done].
    destruct Hids1 as [_ Hreg1]. specialize (Hreg1 n (ex_intro _ x Hx)). lia.
Qed.

(** C10.  Let [ww(p, c)] return the wrapper [l] while the path does not
    resolve, and let the path resolve to [v] in a later state where the
    wrapper is as it was.  Then [ready(cb)] answers [false], calls nothing
    and leaves [cb] pending under the wrapper's id, although [getValue] on
    the same wrapper answers [v]. *)
Theorem C10_ready_uses_captured_type p c st l st1 st2 cb v d log :
  Ww (VStr p) c st = Ok (VObj l) st1 →
  walk false VUndef (split_on dot p) (_getContext c) (heap st) = Ok VUndef (heap st) →
  heap st2 !! l = heap st1 !! l →
  is_Some (_properties st2 !! _i st) →
  walk false VUndef (split_on dot p) (_getContext c) (heap st2) = Ok v (heap st2) →
  v ≠ VUndef →
  is_function cb = true →
  ww.ready (VObj l) cb (mkWorld st2 log)
  = Ok (VBool false)
       (mkWorld (with_unready (<[_i st := cb]> (_propertiesUnready st2)) st2) log)
  ∧ ww.getValue (VObj l) d st2 = Ok v st2.
Proof.
  intros Hacc Hundef Hsame [r' Hreg] Hres Hv Hcb.
  destruct (Ww_string_layout _ _ _ _ _ Hacc)
    as (r & o & _ & _ & _ & Hh & _ & _ & _ & Hpath & Hctx & Hid & v0 & Hw0 & Hty & _).
  rewrite Hundef in Hw0. injection Hw0 as <-.
  assert (∀ k x, o !! k = Some x → get_prop (heap st2) (VObj l) k = Some x) as G.
  { intros k x Hx. apply get_prop_field. unfold field.
    by rewrite Hsame, Hh, lookup_insert_eq. }
  split.
  - unfold ww.ready. cbn [js heap calls]. rewrite (G _ _ Hty), (G _ _ Hid), Hcb.
    rewrite bool_decide_eq_true_2 by done. cbn [negb].
    unfold PropertiesUnready.set. by rewrite Hcb, Hreg.
  - unfold ww.getValue. rewrite (G _ _ Hpath), (G _ _ Hctx).
    unfold _getProperty. apply is_undefined_false in Hv.
    change (is_undefined VUndef) with true. cbn [negb]. rewrite Hres, Hv.
    cbn [negb]. by rewrite with_heap_id.
Qed.
End wrappers.

(** ** The readiness engine *)

Lemma world_eta w : mkWorld (js w) (calls w) = w.
Proof. by destruct w. Qed.

Lemma keys_pending st i :
  i ∈ PropertiesUnready.keys st ↔ is_Some (_propertiesUnready st !! i).
Proof.
  unfold PropertiesUnready.keys.
  rewrite merge_sort_Permutation, elem_of_elements. apply elem_of_dom.
Qed.

Lemma keys_NoDup st : NoDup (PropertiesUnready.keys st).
Proof.
  unfold PropertiesUnready.keys. rewrite merge_sort_Permutation. apply NoDup_elements.
Qed.

Section engine_facts.
Context {host : Host}.

(** One iteration either fires nothing, leaving log and pending set as
    they are, or calls the callback stored under [i] on the updated record
    while [i] is still pending; it deletes [i] when the call returns, and
    is left by the exception when the call throws. *)
Lemma process_entry_cases i w :
  let o := PropertiesUnready.process_entry i w in
  (calls (state_of o) = calls w
   ∧ _propertiesUnready (js (state_of o)) = _propertiesUnready (js w))
  ∨ (∃ cb property value,
       let st2 := _Property.update property value (js w) in
       let st3 := run_fn cb (VObj property) st2 in
       let log := calls w ++ [mkInvocation (Some i) cb (VObj property) st2] in
       _propertiesUnready (js w) !! i = Some cb
       ∧ _propertiesUnready st2 !! i = Some cb
       ∧ _properties (js w) !! i = Some property
       ∧ value ≠ VUndef
       ∧ o = if fn_throws cb (VObj property) st2
             then TypeError (mkWorld st3 log)
             else Ok tt (mkWorld (with_unready (delete i (_propertiesUnready st3)) st3) log)).
Proof.
  cbv zeta. unfold PropertiesUnready.process_entry.
  destruct (_propertiesUnready (js w) !! i) as [cb|] eqn:Hcb; [|left; done].
  destruct (_properties (js w) !! i) as [property|] eqn:Hprop; [|left; done].
  destruct (get_prop _ _ "path") as [path|]; [|left; done].
  destruct (get_prop _ _ "context") as [context|]; [|left; done].
  pose proof (_getProperty_read_only path context (heap (js w))) as Hro.
  destruct (_getProperty path context VUndef (heap (js w))) as [value h|h];
    simpl in Hro; subst h; rewrite with_heap_id; [|left; done].
  destruct (is_undefined value) eqn:Hv; [left; done|].
  apply is_undefined_false in Hv.
  unfold invoke. cbn [js calls].
  replace (_propertiesUnready (_Property.update property value (js w)))
    with (_propertiesUnready (js w)) by done.
  rewrite Hcb. change (default VUndef (Some cb)) with cb.
  destruct (is_function cb) eqn:Hf; [|left; done].
  right. exists cb, property, value.
  do 4 (split; [done|]). by destruct (fn_throws cb (VObj property) _).
Qed.

(** The iteration over a pending entry whose path resolves: the record
    is updated, the callback is called on it, and the entry is deleted
    if the call returns. *)
Lemma process_entry_resolved i w cb r s c v :
  _propertiesUnready (js w) !! i = Some cb →
  is_function cb = true →
  _properties (js w) !! i = Some r →
  get_prop (heap (js w)) (VObj r) "path" = Some (VStr s) →
  get_prop (heap (js w)) (VObj r) "context" = Some c →
  walk false VUndef (split_on dot s) c (heap (js w)) = Ok v (heap (js w)) →
  v ≠ VUndef →
  let st2 := _Property.update r v (js w) in
  let st3 := run_fn cb (VObj r) st2 in
  let log := calls w ++ [mkInvocation (Some i) cb (VObj r) st2] in
  PropertiesUnready.process_entry i w
  = if fn_throws cb (VObj r) st2
    then TypeError (mkWorld st3 log)
    else Ok tt (mkWorld (with_unready (delete i (_propertiesUnready st3)) st3) log).
Proof.
  intros Hcb Hf Hr Hp Hc Hw Hv st2 st3 log.
  unfold PropertiesUnready.process_entry. rewrite Hcb, Hr, Hp, Hc.
  unfold _getProperty. change (is_undefined VUndef) with true. cbn [negb].
  rewrite Hw. apply is_undefined_false in Hv. rewrite Hv. rewrite with_heap_id.
  unfold invoke. cbn [js calls].
  replace (_propertiesUnready (_Property.update r v (js w)))
    with (_propertiesUnready (js w)) by done.
  rewrite Hcb. change (default VUndef (Some cb)) with cb. rewrite Hf.
  fold st2. by destruct (fn_throws cb (VObj r) st2).
Qed.

(** The iteration over a pending entry whose path does not resolve. *)
Lemma process_entry_idle i w :
  idle_entry (js w) i → PropertiesUnready.process_entry i w = Ok tt w.
Proof.
  intros Hidle. unfold PropertiesUnready.process_entry.
  destruct (_propertiesUnready (js w) !! i) as [cb|] eqn:Hcb; [|done].
  destruct Hidle as (r & s & c & -> & -> & -> & Hw); [by rewrite Hcb|].
  unfold _getProperty. change (is_undefined VUndef) with true. cbn [negb].
  rewrite Hw. change (is_undefined VUndef) with true. cbv iota.
  by rewrite with_heap_id, world_eta.
Qed.

Lemma process_loop_idle ids w :
  (∀ i, i ∈ ids → idle_entry (js w) i) → PropertiesUnready.process_loop ids w = Ok tt w.
Proof.
  induction ids as [|i rest IH]; intros Hidle; [done|].
  cbn [PropertiesUnready.process_loop].
  rewrite process_entry_idle by (apply Hidle; left). apply IH.
  intros j Hj. apply Hidle. by right.
Qed.

(** What [update] writes. *)
Lemma update_fields r v st :
  let st2 := _Property.update r v st in
  field (heap st2) r "value" = Some v
  ∧ field (heap st2) r "type" = Some (VStr (typeof v))
  ∧ _properties st2 = _properties st
  ∧ _propertiesUnready st2 = _propertiesUnready st.
Proof.
  cbv zeta. unfold _Property.update, field. cbn [heap with_heap].
  rewrite lookup_insert_eq. cbn.
  split; [by rewrite lookup_insert_eq|].
  split; [by rewrite lookup_insert_ne, lookup_insert_eq|done].
Qed.

Lemma fired_snoc i w st inv :
  fired i (mkWorld st (calls w ++ [inv]))
  = fired i w ++ (if decide (inv_entry inv = Some i) then [inv] else []).
Proof.
  unfold fired; simpl. by rewrite filter_app.
Qed.

(** With a callback that returns, the entry is fired at most once. *)
Lemma process_entry_once i cb j w :
  (∀ f a, leaves_entry i (run_fn f a)) →
  (∀ a st, fn_throws cb a st = false) →
  entry_state i cb w → entry_state i cb (state_of (PropertiesUnready.process_entry j w)).
Proof.
  intros Hleave Hret Hinv.
  destruct (process_entry_cases j w) as [[Hc Hp]|(f & property & value & Hj & _ & _ & _ & Ho)].
  { unfold entry_state, fired in *. by rewrite Hc, Hp. }
  cbv zeta in Ho. rewrite Ho. clear Ho.
  destruct (decide (j = i)) as [->|Hne].
  - destruct Hinv as [[Hf Hp]|(inv & _ & _ & Hp)]; [|congruence].
    assert (f = cb) as -> by congruence. rewrite Hret. cbn [state_of].
    unfold entry_state. rewrite fired_snoc. cbn [js inv_entry].
    right. eexists. rewrite Hf, decide_True by done.
    split; [done|]. split; [done|]. apply lookup_delete_eq.
  - assert (∀ st, entry_state i cb
              (mkWorld st (calls w ++ [mkInvocation (Some j) f (VObj property)
                                         (_Property.update property value (js w))]))
            ↔ (fired i w = [] ∧ _propertiesUnready st !! i = Some cb)
              ∨ (∃ inv, fired i w = [inv] ∧ inv_cb inv = cb
                        ∧ _propertiesUnready st !! i = None)) as Hsnoc.
    { intros st. unfold entry_state. rewrite fired_snoc. cbn [js inv_entry].
      rewrite decide_False by congruence. by rewrite app_nil_r. }
    destruct (fn_throws f _ _); cbn [state_of]; apply Hsnoc.
    + setoid_rewrite Hleave. exact Hinv.
    + unfold with_unready; cbn [_propertiesUnready].
      setoid_rewrite lookup_delete_ne; [|done..]. setoid_rewrite Hleave. exact Hinv.
Qed.

Lemma process_loop_once i cb ids w :
  (∀ f a, leaves_entry i (run_fn f a)) →
  (∀ a st, fn_throws cb a st = false) →
  entry_state i cb w → entry_state i cb (state_of (PropertiesUnready.process_loop ids w)).
Proof.
  intros Hleave Hret; revert w; induction ids as [|j rest IH]; intros w Hinv; [done|].
  cbn [PropertiesUnready.process_loop].
  pose proof (process_entry_once i cb j w Hleave Hret Hinv) as Hj.
  destruct (PropertiesUnready.process_entry j w) as [[] w'|w']; [by apply IH|done].
Qed.

Lemma run_ticks_once i cb envs w :
  (∀ f a, leaves_entry i (run_fn f a)) →
  (∀ a st, fn_throws cb a st = false) →
  Forall (leaves_entry i) envs →
  entry_state i cb w → entry_state i cb (run_ticks envs w).
Proof.
  intros Hleave Hret Henvs; revert w;
    induction Henvs as [|env rest Henv _ IH]; intros w Hinv; [done|].
  cbn [run_ticks]. apply IH. apply process_loop_once; [done..|].
  destruct Hinv as [[Hf Hp]|(inv & Hf & Hcb & Hp)]; [left|right; exists inv];
    unfold fired in *; cbn [js calls]; by rewrite Henv.
Qed.

Lemma entry_state_bound i cb w :
  entry_state i cb w →
  (length (fired i w) ≤ 1)%nat ∧ Forall (λ inv, inv_cb inv = cb) (fired i w).
Proof.
  intros [[-> _]|(inv & -> & Hcb & _)]; simpl; split; auto with lia.
Qed.

(** Whether its callback returns or throws, the entry is fired with the
    callback it holds. *)
Lemma process_entry_callback i cb j w :
  (∀ f a, leaves_entry i (run_fn f a)) →
  entry_callback i cb w →
  entry_callback i cb (state_of (PropertiesUnready.process_entry j w)).
Proof.
  intros Hleave [Hall Hpend].
  destruct (process_entry_cases j w) as [[Hc Hp]|(f & property & value & Hj & _ & _ & _ & Ho)].
  { unfold entry_callback, fired in *. by rewrite Hc, Hp. }
  cbv zeta in Ho. rewrite Ho. clear Ho.
  assert (∀ st, _propertiesUnready st !! i = Some cb ∨ _propertiesUnready st !! i = None →
            entry_callback i cb
              (mkWorld st (calls w ++ [mkInvocation (Some j) f (VObj property)
                                         (_Property.update property value (js w))]))) as Hsnoc.
  { intros st Hst. split; [|exact Hst]. rewrite fired_snoc. cbn [inv_entry].
    apply Forall_app. split; [done|]. case_decide as Hji; [|constructor].
    constructor; [|constructor]. cbn [inv_cb]. destruct Hpend; congruence. }
  destruct (fn_throws f _ _); cbn [state_of]; apply Hsnoc.
  - by rewrite Hleave.
  - unfold with_unready; cbn [_propertiesUnready].
    destruct (decide (j = i)) as [->|Hne]; [right; apply lookup_delete_eq|].
    rewrite lookup_delete_ne by done. by rewrite Hleave.
Qed.

Lemma process_loop_callback i cb ids w :
  (∀ f a, leaves_entry i (run_fn f a)) →
  entry_callback i cb w →
  entry_callback i cb (state_of (PropertiesUnready.process_loop ids w)).
Proof.
  intros Hleave; revert w; induction ids as [|j rest IH]; intros w Hinv; [done|].
  cbn [PropertiesUnready.process_loop].
  pose proof (process_entry_callback i cb j w Hleave Hinv) as Hj.
  destruct (PropertiesUnready.process_entry j w) as [[] w'|w']; [by apply IH|done].
Qed.

Lemma run_ticks_callback i cb envs w :
  (∀ f a, leaves_entry i (run_fn f a)) →
  Forall (leaves_entry i) envs →
  entry_callback i cb w → entry_callback i cb (run_ticks envs w).
Proof.
  intros Hleave Henvs; revert w;
    induction Henvs as [|env rest Henv _ IH]; intros w [Hall Hpend]; [done|].
  cbn [run_ticks]. apply IH. apply process_loop_callback; [done|].
  split; [done|]. cbn [js]. by rewrite Henv.
Qed.

(** An entry that is gone is not fired. *)
Lemma process_entry_gone i j w :
  (∀ f a, leaves_entry i (run_fn f a)) →
  _propertiesUnready (js w) !! i = None →
  let w' := state_of (PropertiesUnready.process_entry j w) in
  _propertiesUnready (js w') !! i = None ∧ fired i w' = fired i w.
Proof.
  intros Hleave Hgone w'. subst w'.
  destruct (process_entry_cases j w) as [[Hc Hp]|(f & property & value & Hj & _ & _ & _ & Ho)].
  { unfold fired. by rewrite Hc, Hp. }
  cbv zeta in Ho. rewrite Ho. clear Ho.
  assert (j ≠ i) as Hne by congruence.
  destruct (fn_throws f _ _); cbn [state_of]; rewrite fired_snoc; cbn [js inv_entry];
    rewrite decide_False, app_nil_r by congruence; (split; [|done]).
  - by rewrite Hleave.
  - unfold with_unready; cbn [_propertiesUnready].
    rewrite lookup_delete_ne by done. by rewrite Hleave.
Qed.

Lemma process_loop_gone i ids w :
  (∀ f a, leaves_entry i (run_fn f a)) →
  _propertiesUnready (js w) !! i = None →
  let w' := state_of (PropertiesUnready.process_loop ids w) in
  _propertiesUnready (js w') !! i = None ∧ fired i w' = fired i w.
Proof.
  intros Hleave; revert w; induction ids as [|j rest IH]; intros w Hgone; [done|].
  cbn [PropertiesUnready.process_loop].
  destruct (process_entry_gone i j w Hleave Hgone) as [Hp Hf].
  destruct (PropertiesUnready.process_entry j w) as [[] w'|w']; cbn [state_of] in *; [|done].
  destruct (IH w' Hp) as [Hp' Hf']. split; [done|congruence].
Qed.


(** A loop fires only the entries it goes through. *)
Lemma process_loop_unlisted i ids w :
  i ∉ ids → fired i (state_of (PropertiesUnready.process_loop ids w)) = fired i w.
Proof.
  revert w; induction ids as [|j rest IH]; intros w Hi; [done|].
  apply not_elem_of_cons in Hi as [Hne Hi].
  cbn [PropertiesUnready.process_loop].
  assert (fired i (state_of (PropertiesUnready.process_entry j w)) = fired i w) as Hj.
  { destruct (process_entry_cases j w)
      as [[Hc _]|(f & property & value & _ & _ & _ & _ & Ho)].
    - unfold fired. by rewrite Hc.
    - cbv zeta in Ho. rewrite Ho.
      destruct (fn_throws f _ _); cbn [state_of]; rewrite fired_snoc; cbn [inv_entry];
        rewrite decide_False by congruence; apply app_nil_r. }
  destruct (PropertiesUnready.process_entry j w) as [[] w'|w']; cbn [state_of] in *;
    [|done].
  by rewrite IH.
Qed.

(** A tick in which the path of the pending entry [i] resolves, the
    other pending entries being idle when it starts: the entry is fired
    once, as [process_entry_resolved] says; a callback that throws ends
    the tick there, and one that returns leaves the entry deleted. *)
Lemma process_resolved i w cb r v :
  resolved_entry (js w) i cb r v →
  (∀ j, j ≠ i → idle_entry (js w) j) →
  let st2 := _Property.update r v (js w) in
  let st3 := run_fn cb (VObj r) st2 in
  let inv := mkInvocation (Some i) cb (VObj r) st2 in
  let w' := state_of (PropertiesUnready.process w) in
  fired i w' = fired i w ++ [inv]
  ∧ (fn_throws cb (VObj r) st2 = true →
     PropertiesUnready.process w = TypeError (mkWorld st3 (calls w ++ [inv])))
  ∧ (fn_throws cb (VObj r) st2 = false →
     (∀ f a, leaves_entry i (run_fn f a)) →
     _propertiesUnready (js w') !! i = None).
Proof.
  intros (Hcb & Hf & Hr & Hv & s & c & Hp & Hc & Hw) Hidle st2 st3 inv w'.
  pose proof (process_entry_resolved i w cb r s c v Hcb Hf Hr Hp Hc Hw Hv) as Hfire.
  cbv zeta in Hfire. fold st2 st3 inv in Hfire.
  assert (i ∈ PropertiesUnready.keys (js w)) as Hin by (apply keys_pending; eauto).
  pose proof (keys_NoDup (js w)) as Hnd.
  apply list_elem_of_split in Hin as (pre & rest & Hsplit).
  subst w'. unfold PropertiesUnready.process. rewrite Hsplit in *.
  apply NoDup_app in Hnd as (_ & Hnotin & [Hrest _]%NoDup_cons).
  assert (∀ j, j ∈ pre → idle_entry (js w) j) as Hpre.
  { intros j Hj. apply Hidle. intros ->. apply (Hnotin i Hj). left. }
  assert (PropertiesUnready.process_loop (pre ++ i :: rest) w
          = match PropertiesUnready.process_entry i w with
            | Ok _ w1 => PropertiesUnready.process_loop rest w1
            | TypeError w1 => TypeError w1
            end) as ->.
  { clear Hsplit Hnotin. induction pre as [|j pre IH]; [done|]. simpl.
    rewrite process_entry_idle by (apply Hpre; left).
    apply IH. intros j' Hj'. apply Hpre. by right. }
  rewrite Hfire. destruct (fn_throws cb (VObj r) st2).
  - cbn [state_of]. rewrite fired_snoc. cbn [inv inv_entry].
    by rewrite decide_True.
  - split; [|split; [done|]].
    + rewrite process_loop_unlisted by done. rewrite fired_snoc. cbn [inv inv_entry].
      by rewrite decide_True.
    + intros _ Hleave. apply process_loop_gone; [done|]. cbn [js with_unready].
      apply lookup_delete_eq.
Qed.
End engine_facts.

Section engine_claims.
Context {host : Host}.


Lemma set_inv id cb st st1 :
  PropertiesUnready.set id cb st = (true, st1) →
  ∃ n, id = VNum n ∧ is_function cb = true
       ∧ st1 = with_unready (<[n := cb]> (_propertiesUnready st)) st.
Proof.
  unfold PropertiesUnready.set. destruct id; try done.
  destruct (is_function cb); [|done]. destruct (_properties st !! n); [|done].
  intros [= <-]. eauto.
Qed.

(** The calls a loop adds to the log are all made for an entry that is
    still pending, with the callback stored under it. *)
Lemma process_loop_calls ids w :
  ∃ new, calls (state_of (PropertiesUnready.process_loop ids w)) = calls w ++ new
    ∧ Forall (λ inv, ∃ i, inv_entry inv = Some i
                ∧ _propertiesUnready (inv_before inv) !! i = Some (inv_cb inv)) new.
Proof.
  revert w; induction ids as [|j rest IH]; intros w.
  { exists []. by rewrite app_nil_r. }
  cbn [PropertiesUnready.process_loop].
  destruct (process_entry_cases j w) as [[Hc _]|(f & property & value & _ & Hp & _ & _ & Ho)].
  - destruct (PropertiesUnready.process_entry j w) as [[] w'|w']; simpl in Hc.
    + destruct (IH w') as (new & Hn & Hall). exists new. by rewrite Hn, Hc.
    + exists []. by rewrite app_nil_r.
  - cbv zeta in Ho. rewrite Ho. destruct (fn_throws f _ _).
    + eexists [_]. cbn [state_of calls]. split; [done|].
      constructor; [|constructor]. by exists j.
    + match goal with |- context [PropertiesUnready.process_loop rest ?w'] =>
        destruct (IH w') as (new & Hn & Hall) end.
      eexists (_ :: new). rewrite Hn. cbn [calls]. rewrite <- app_assoc. split; [done|].
      constructor; [|done]. by exists j.
Qed.

(** C1, amended.  An iteration of a tick over a pending entry whose path
    resolves to [v] first updates the record with [v] and its type, then
    calls the callback stored under the entry's id, once and on that
    record, in a state whose pending set still holds the id; the entry is
    deleted when the call returns, from the state the callback has left,
    and not at all when the call throws.  So does the tick as a whole when
    the other pending entries are idle.  All the calls a tick makes are
    made for an id that is still pending. *)
Theorem C1_callback_called_then_removed i w cb r v :
  resolved_entry (js w) i cb r v →
  let st2 := _Property.update r v (js w) in
  let st3 := run_fn cb (VObj r) st2 in
  let inv := mkInvocation (Some i) cb (VObj r) st2 in
  let w' := state_of (PropertiesUnready.process_entry i w) in
  let wt := state_of (PropertiesUnready.process w) in
  field (heap st2) r "value" = Some v
  ∧ field (heap st2) r "type" = Some (VStr (typeof v))
  ∧ _propertiesUnready st2 !! i = Some cb
  ∧ PropertiesUnready.process_entry i w
    = (if fn_throws cb (VObj r) st2
       then TypeError (mkWorld st3 (calls w ++ [inv]))
       else Ok tt (mkWorld (with_unready (delete i (_propertiesUnready st3)) st3)
                           (calls w ++ [inv])))
  ∧ (fn_throws cb (VObj r) st2 = false → _propertiesUnready (js w') !! i = None)
  ∧ ((∀ j, j ≠ i → idle_entry (js w) j) →
     fired i wt = fired i w ++ [inv]
     ∧ (fn_throws cb (VObj r) st2 = false → (∀ f a, leaves_entry i (run_fn f a)) →
        _propertiesUnready (js wt) !! i = None))
  ∧ (∀ w0, ∃ new,
       calls (state_of (PropertiesUnready.process w0)) = calls w0 ++ new
       ∧ Forall (λ inv, ∃ j, inv_entry inv = Some j
                   ∧ _propertiesUnready (inv_before inv) !! j = Some (inv_cb inv)) new).
Proof.
  intros Hres st2 st3 inv w' wt.
  pose proof (process_resolved i w cb r v Hres) as Htick.
  destruct Hres as (Hcb & Hf & Hr & Hv & s & c & Hp & Hc & Hw).
  pose proof (process_entry_resolved i w cb r s c v Hcb Hf Hr Hp Hc Hw Hv) as Hfire.
  cbv zeta in Hfire, Htick. fold st2 st3 inv wt in Hfire, Htick.
  destruct (update_fields r v (js w)) as (Hval & Hty & _ & Hpend). fold st2 in Hval, Hty, Hpend.
  split; [done|]. split; [done|]. split; [by rewrite Hpend|]. split; [done|].
  split; [|split].
  - intros Hret. subst w'. rewrite Hfire, Hret. cbn [state_of js with_unready].
    apply lookup_delete_eq.
  - intros Hidle. destruct (Htick Hidle) as (Hfired & _ & Hgone). by split.
  - intros w0. apply process_loop_calls.
Qed.


(** C9.  Scheduling [c2] under an id that already holds [c1] leaves the
    pending set as if only [c2] had been scheduled.  As long as the entry
    is what the second call has left, an iteration over it whose path
    resolves, and the tick if the other entries are idle, calls [c2], once
    and on the updated record.  In any run of ticks in which no other code
    schedules or fires the entry, every call made for it is a call of
    [c2], and there is at most one if [c2] returns. *)
Theorem C9_latest_callback_wins st id c1 c2 st1 st2 :
  PropertiesUnready.set id c1 st = (true, st1) →
  PropertiesUnready.set id c2 st1 = (true, st2) →
  ∃ i, id = VNum i
    ∧ _propertiesUnready st1 !! i = Some c1
    ∧ _propertiesUnready st2 = <[i := c2]> (_propertiesUnready st)
    ∧ (∀ w cb r v,
         _propertiesUnready (js w) !! i = _propertiesUnready st2 !! i →
         resolved_entry (js w) i cb r v →
         let sta := _Property.update r v (js w) in
         let stb := run_fn c2 (VObj r) sta in
         let inv := mkInvocation (Some i) c2 (VObj r) sta in
         cb = c2
         ∧ PropertiesUnready.process_entry i w
           = (if fn_throws c2 (VObj r) sta
              then TypeError (mkWorld stb (calls w ++ [inv]))
              else Ok tt (mkWorld (with_unready (delete i (_propertiesUnready stb)) stb)
                                  (calls w ++ [inv])))
         ∧ ((∀ j, j ≠ i → idle_entry (js w) j) →
            fired i (state_of (PropertiesUnready.process w)) = fired i w ++ [inv]))
    ∧ ∀ log envs,
        (∀ f a, leaves_entry i (run_fn f a)) →
        Forall (leaves_entry i) envs →
        fired i (mkWorld st2 log) = [] →
        Forall (λ inv, inv_cb inv = c2) (fired i (run_ticks envs (mkWorld st2 log)))
        ∧ ((∀ a st', fn_throws c2 a st' = false) →
           (length (fired i (run_ticks envs (mkWorld st2 log))) ≤ 1)%nat).
Proof.
  intros (i & -> & _ & ->)%set_inv (i' & [= <-] & Hf2 & ->)%set_inv. exists i.
  split; [done|]. split; [apply lookup_insert_eq|].
  split; [apply insert_insert_eq|].
  assert (∀ u, (<[i := c2]> u : gmap Z val) !! i = Some c2) as Hi
    by (intros u; apply lookup_insert_eq).
  split.
  - intros w cb r v Hpend Hres sta stb inv.
    cbn [_propertiesUnready with_unready] in Hpend. rewrite Hi in Hpend.
    assert (cb = c2) as -> by (destruct Hres as (Hcb & _); congruence).
    split; [done|]. split.
    + destruct Hres as (_ & Hf & Hr & Hv & s & c & Hp & Hc & Hw).
      by apply (process_entry_resolved i w c2 r s c v).
    + intros Hidle. by apply (process_resolved i w c2 r v).
  - intros log envs Hleave Henvs Hfired. split.
    + eapply run_ticks_callback; [done..|]. split; [by rewrite Hfired|].
      left. apply Hi.
    + intros Hret. eapply entry_state_bound, run_ticks_once; [done..|].
      left. split; [done|]. apply Hi.
Qed.
End engine_claims.

(** ** Extension and the registry *)

Lemma split_on_cons sep s : ∃ k rest, split_on sep s = k :: rest.
Proof.
  induction s as [|c s (k & rest & IH)]; simpl; [eauto|].
  destruct (decide (c = sep)); [eauto|]. rewrite IH. eauto.
Qed.

Section extension.
Context {host : Host}.

Lemma get_prop_hidden r h v k p :
  hidden r h → get_prop h v k = Some p → ¬ refers p r.
Proof.
  intros [Hown Hinh] Hget.
  assert (∀ w, (if read_throws w k then None else Some (inherited w k)) = Some p →
               ¬ refers p r) as Hchain.
  { intros w Hw. destruct (read_throws w k); [done|]. injection Hw as <-. apply Hinh. }
  assert (∀ l, refers v l → ¬ refers p r) as Href.
  { intros l Hl. rewrite (get_prop_ref _ _ l) in Hget by done.
    unfold field in Hget. destruct (h !! l) as [o|] eqn:Ho; simpl in Hget; [|by eapply Hchain].
    destruct (o !! k) as [x|] eqn:Hx; [|by eapply Hchain].
    injection Hget as <-. by eapply Hown. }
  destruct v as [| |b|n|s|l|l]; try done; try (by eapply Hchain);
    eapply Href; by (left + right).
Qed.

Lemma set_prop_hidden r h v k x h' :
  hidden r h → ¬ refers v r → ¬ refers x r → set_prop h v k x = Some h' →
  h' !! r = h !! r ∧ hidden r h'.
Proof.
  intros [Hown Hinh] Hv Hx (l & Hl & ->)%set_prop_Some.
  assert (l ≠ r) as Hne by (intros ->; done).
  split; [by rewrite lookup_insert_ne|]. split; [|done].
  intros l' o' Ho' k' v' Hv'.
  destruct (decide (l = l')) as [<-|Hll].
  - rewrite lookup_insert_eq in Ho'. injection Ho' as <-.
    destruct (decide (k = k')) as [<-|Hkk].
    + rewrite lookup_insert_eq in Hv'. by injection Hv' as <-.
    + rewrite lookup_insert_ne in Hv' by done.
      destruct (h !! l) as [o|] eqn:Ho; simpl in Hv'; [by eapply Hown|done].
  - rewrite lookup_insert_ne in Ho' by done. by eapply Hown.
Qed.

(** A walk cannot write into an object it cannot reach. *)
Lemma walk_hidden r b ev segs prev h :
  hidden r h → ¬ refers prev r → ¬ refers ev r →
  state_of (walk b ev segs prev h) !! r = h !! r
  ∧ hidden r (state_of (walk b ev segs prev h)).
Proof.
  intros Hh Hprev Hev; revert prev h Hh Hprev.
  induction segs as [|k rest IH]; intros prev h Hh Hprev; simpl; [done|].
  destruct (get_prop h prev k) as [p|] eqn:Hget; [|done].
  pose proof (get_prop_hidden _ _ _ _ _ Hh Hget) as Hp.
  destruct (is_undefined p); [|by apply IH].
  destruct b; [|done].
  destruct (set_prop h prev k ev) as [h'|] eqn:Hset; [|done].
  rewrite (get_set_prop _ _ _ _ _ Hset).
  destruct (set_prop_hidden _ _ _ _ _ _ Hh Hprev Hev Hset) as [Hr Hh'].
  destruct (IH ev h' Hh' Hev) as [IH1 IH2]. split; [congruence|done].
Qed.

(** C3, amended.  [extend] touches neither the registry nor the pending
    set, and it performs no update of a record: a registered record that
    the context graph cannot reach keeps all its fields, its value and
    type included.  When [extend] returns, its result is a defined value
    and [getValue] on the same wrapper, which resolves the path again,
    returns it. *)
Theorem C3_extend_leaves_record this value st r d :
  is_Some (heap st !! r) → hidden r (heap st) → ¬ refers this r → ¬ refers value r →
  let out := ww.extend this value st in
  _properties (state_of out) = _properties st
  ∧ _i (state_of out) = _i st
  ∧ _propertiesUnready (state_of out) = _propertiesUnready st
  ∧ heap (state_of out) !! r = heap st !! r
  ∧ ∀ v st', out = Ok v st' → v ≠ VUndef ∧ ww.getValue this d st' = Ok v st'.
Proof.
  intros [o Ho] Hhid Hthis Hvalue. unfold ww.extend.
  set (l := fresh (dom (heap st))).
  assert (l ≠ r) as Hl.
  { intros E. pose proof (fresh_lookup (heap st)) as Hf. fold l in Hf. congruence. }
  set (arg := if is_undefined value
              then (VObj l, <[l := ∅]> (heap st)) else (value, heap st)).
  assert (arg.1 ≠ VUndef ∧ ¬ refers arg.1 r ∧ arg.2 !! r = heap st !! r ∧ hidden r arg.2)
    as (Hdef & Harg & Hr0 & Hhid0).
  { unfold arg. destruct (is_undefined value) eqn:Hu; simpl.
    - split; [done|]. split; [intros [[=]|[=]]; done|].
      split; [by rewrite lookup_insert_ne|]. destruct Hhid as [Hown Hinh]. split; [|done].
      intros l' o' Ho' k' v' Hv'. destruct (decide (l = l')) as [<-|Hll].
      + rewrite lookup_insert_eq in Ho'. injection Ho' as <-. by rewrite lookup_empty in Hv'.
      + rewrite lookup_insert_ne in Ho' by done. by eapply Hown.
    - by apply is_undefined_false in Hu. }
  destruct arg as [ev h0]; simpl in *.
  destruct (get_prop h0 this "path") as [path|] eqn:Hpath; [|done].
  destruct (get_prop h0 this "context") as [context|] eqn:Hctx; [|done].
  pose proof (get_prop_hidden _ _ _ _ _ Hhid0 Hctx) as Hc.
  destruct path as [| | | |s| |]; try done. unfold _getProperty.
  apply is_undefined_false in Hdef. rewrite Hdef. cbn [negb].
  apply is_undefined_false in Hdef.
  destruct (walk_hidden r true ev (split_on dot s) context h0 Hhid0 Hc Harg) as [Hr1 _].
  pose proof (walk_grows true ev (split_on dot s) context h0) as Hg.
  destruct (walk true ev (split_on dot s) context h0) as [v h'|h'] eqn:Hw; simpl in *.
  2:{ repeat split; try done. congruence. }
  repeat split; try done; try congruence.
  - injection H as <- <-.
    assert (context ≠ VUndef) as Hcd.
    { intros ->. destruct (split_on_cons dot s) as (k & rest & Hs).
      rewrite Hs in Hw. done. }
    by destruct (walk_extend_resolves ev VUndef _ _ _ _ _ Hdef Hcd Hw).
  - injection H as <- <-.
    assert (context ≠ VUndef) as Hcd.
    { intros ->. destruct (split_on_cons dot s) as (k & rest & Hs).
      rewrite Hs in Hw. done. }
    destruct (walk_extend_resolves ev VUndef _ _ _ _ _ Hdef Hcd Hw) as [Hv Hw'].
    unfold ww.getValue. cbn [heap with_heap].
    rewrite (Hg _ _ _ Hpath) by done. rewrite (Hg _ _ _ Hctx) by done.
    unfold _getProperty. change (is_undefined VUndef) with true. cbn [negb].
    rewrite Hw'. apply is_undefined_false in Hv as ->. done.
Qed.

(** On a path that resolves, [extend] with an explicit value returns what
    is there and writes nothing. *)
Lemma extend_resolved this value st s context v :
  value ≠ VUndef →
  get_prop (heap st) this "path" = Some (VStr s) →
  get_prop (heap st) this "context" = Some context →
  walk false VUndef (split_on dot s) context (heap st) = Ok v (heap st) →
  v ≠ VUndef →
  ww.extend this value st = Ok v st.
Proof.
  intros Hvalue Hpath Hctx Hw Hv. unfold ww.extend.
  apply is_undefined_false in Hvalue. rewrite Hvalue, Hpath, Hctx.
  unfold _getProperty. rewrite Hvalue. cbn [negb].
  rewrite (walk_resolved_extend _ value _ _ _ _ Hw Hv). cbn [lift_heap].
  by rewrite with_heap_id.
Qed.

(** An update by the engine changes the value and the type of a record,
    never its path or context. *)
Lemma update_keeps_identity r value st l :
  keeps_identity (heap st) (heap (_Property.update r value st)) l.
Proof.
  unfold keeps_identity, field, _Property.update; cbn [heap with_heap].
  destruct (decide (r = l)) as [<-|Hne].
  - rewrite lookup_insert_eq; cbn. rewrite !lookup_insert_ne by done.
    by destruct (heap st !! r).
  - by rewrite lookup_insert_ne.
Qed.
End extension.

(** ** Worked instances

    [var s = ww('a', mock)] on [mock = {}] puts the record at location 22
    and the wrapper at location 23, with the id 0. *)

(** C7 on [mock = {a: true}]: after [s.value = false], [mock.a] reads as
    before. *)
Lemma C7_snapshot_isolation_witness :
  let st := st_mock {[ "a" := VBool true ]} in
  let acc := @Ww plain_host (VStr "a") mock st in
  ∃ l, acc = Ok (VObj l) (state_of acc)
    ∧ @get_prop plain_host
        (heap (assign (VObj l) "value" (VBool false) (state_of acc))) mock "a"
      = @get_prop plain_host (heap st) mock "a".
Proof.
  intros st acc.
  assert (acc = Ok (VObj 23%nat) (state_of acc)) as Hacc
    by (apply outcome_ok; vm_compute; reflexivity).
  exists 23%nat. split; [exact Hacc|].
  apply (@C7_snapshot_isolation plain_host _ _ _ _ _ "value" (VBool false) Hacc).
  - intros n r E. discriminate E.
  - apply elem_of_dom. eexists. vm_compute. reflexivity.
Defined.


Lemma sc_before_tick_resolved :
  @resolved_entry plain_host (js (@sc_before_tick plain_host)) 0 cb1 22%nat (VNum 42).
Proof.
  split; [vm_compute; reflexivity|]. split; [reflexivity|].
  split; [vm_compute; reflexivity|]. split; [discriminate|].
  exists "a", mock. split; [vm_compute; reflexivity|]. split; [vm_compute; reflexivity|].
  apply walk_ok_intro; vm_compute; reflexivity.
Qed.

Lemma sc_before_tick_pending :
  _propertiesUnready (js (@sc_before_tick plain_host)) = {[ 0 := cb1 ]}.
Proof. vm_compute. reflexivity. Qed.

(** C1 on the worked run: the tick stores 42 in the record, calls [cb1]
    while 0 is pending, and 0 is gone afterwards. *)
Lemma C1_callback_called_then_removed_witness :
  let w := @sc_before_tick plain_host in
  let st2 := _Property.update 22%nat (VNum 42) (js w) in
  let wt := state_of (@PropertiesUnready.process plain_host w) in
  field (heap st2) 22%nat "value" = Some (VNum 42)
  ∧ _propertiesUnready st2 !! 0 = Some cb1
  ∧ fired 0 wt = fired 0 w ++ [mkInvocation (Some 0) cb1 (VObj 22%nat) st2]
  ∧ _propertiesUnready (js wt) !! 0 = None.
Proof.
  intros w st2 wt.
  destruct (@C1_callback_called_then_removed plain_host 0 w cb1 22%nat (VNum 42)
              sc_before_tick_resolved) as (Hval & _ & Hpend & _ & _ & Htick & _).
  destruct Htick as [Hfired Hgone].
  { intros j Hj [cb Hcb]. unfold w in Hcb. rewrite sc_before_tick_pending in Hcb.
    apply lookup_singleton_Some in Hcb as [<- _]. by destruct Hj. }
  split; [exact Hval|]. split; [exact Hpend|]. split; [exact Hfired|].
  apply Hgone; [reflexivity|]. intros f a st. reflexivity.
Defined.

(** C3 on the worked run: [s.extend(true)] leaves the record at 22 as it
    was. *)
Lemma C3_extend_leaves_record_witness :
  let st := state_of (@sc_access plain_host) in
  heap (state_of (@ww.extend plain_host (VObj 23%nat) (VBool true) st)) !! 22%nat
  = heap st !! 22%nat.
Proof.
  intros st.
  apply (@C3_extend_leaves_record plain_host (VObj 23%nat) (VBool true) st 22%nat VUndef).
  - eexists. vm_compute. reflexivity.
  - split; [apply (bool_decide_unpack _); vm_compute; reflexivity|].
    intros v k [E|E]; discriminate E.
  - intros [E|E]; [injection E as E|]; discriminate E.
  - intros [E|E]; discriminate E.
Defined.


(** C6 on [mock = {a: true}]: after [mock.a = 7], [ww(0)] and the first
    wrapper agree on [getValue()]. *)
Lemma C6_access_by_id_witness :
  let st := st_mock {[ "a" := VBool true ]} in
  let acc := @Ww plain_host (VStr "a") mock st in
  let st2 := assign mock "a" (VNum 7) (state_of acc) in
  ∃ l2 st3,
    @Ww plain_host (VNum 0) VUndef st2 = Ok (VObj l2) st3
    ∧ @ww.getValue plain_host (VObj l2) VUndef st3
      = @ww.getValue plain_host (VObj 23%nat) VUndef st3.
Proof.
  intros st acc st2.
  assert (acc = Ok (VObj 23%nat) (state_of acc)) as Hacc
    by (apply outcome_ok; vm_compute; reflexivity).
  assert (ids_issued st) as Hids.
  { split; [discriminate|]. intros n [x Hx]. simpl in Hx.
    rewrite lookup_empty in Hx. discriminate Hx. }
  destruct (proj1 (@C6_access_by_id plain_host "a" mock st 23%nat (state_of acc) Hacc Hids)
              st2 VUndef VUndef) as (l2 & st3 & HW & _ & _ & _ & Hg).
  - intros r Hr. pose proof Hr as Hr'. vm_compute in Hr'. injection Hr' as <-.
    split; [exact Hr|]. split; vm_compute; reflexivity.
  - split; vm_compute; reflexivity.
  - exists l2, st3. split; [exact HW|exact Hg].
Defined.

(** C9 on the worked run: [set(0, cb1); set(0, cb2)] leaves [cb2] alone
    under the id 0, and the tick that follows [mock.a = 42] calls [cb2]. *)
Lemma C9_latest_callback_wins_witness :
  let st := state_of (@sc_access plain_host) in
  let st1 := (PropertiesUnready.set (VNum 0) cb1 st).2 in
  let st2 := (PropertiesUnready.set (VNum 0) cb2 st1).2 in
  let w := mkWorld (assign mock "a" (VNum 42) st2) [] in
  _propertiesUnready st2 = <[0 := cb2]> (_propertiesUnready st)
  ∧ map inv_cb (fired 0 (state_of (@PropertiesUnready.process plain_host w))) = [cb2].
Proof.
  intros st st1 st2 w.
  destruct (@C9_latest_callback_wins plain_host st (VNum 0) cb1 cb2 st1 st2)
    as (i & Hi & _ & Hp & Hfire & _).
  - apply injective_projections; [vm_compute; reflexivity|reflexivity].
  - apply injective_projections; [vm_compute; reflexivity|reflexivity].
  - injection Hi as <-. split; [exact Hp|].
    destruct (Hfire w cb2 22%nat (VNum 42)) as (_ & _ & Htick).
    + reflexivity.
    + split; [vm_compute; reflexivity|]. split; [reflexivity|].
      split; [vm_compute; reflexivity|]. split; [discriminate|].
      exists "a", mock. split; [vm_compute; reflexivity|].
      split; [vm_compute; reflexivity|]. apply walk_ok_intro; vm_compute; reflexivity.
    + rewrite Htick; [reflexivity|].
      intros j Hj [cb Hcb].
      assert (_propertiesUnready (js w) = {[ 0 := cb2 ]}) as Hpend
        by (vm_compute; reflexivity).
      rewrite Hpend in Hcb. apply lookup_singleton_Some in Hcb as [<- _]. by destruct Hj.
Defined.

(** C10 on the worked run: after [mock.a = 42], [s.ready(cb1)] still
    answers [false] while [s.getValue()] answers 42. *)
Lemma C10_ready_uses_captured_type_witness :
  let acc := @sc_access plain_host in
  let st2 := assign mock "a" (VNum 42) (state_of acc) in
  @ww.ready plain_host (VObj 23%nat) cb1 (mkWorld st2 [])
  = Ok (VBool false)
       (mkWorld (with_unready (<[0 := cb1]> (_propertiesUnready st2)) st2) [])
  ∧ @ww.getValue plain_host (VObj 23%nat) VUndef st2 = Ok (VNum 42) st2.
Proof.
  intros acc st2.
  apply (@C10_ready_uses_captured_type plain_host "a" mock (st_mock ∅) 23%nat
           (state_of acc) st2 cb1 (VNum 42) VUndef []).
  - apply outcome_ok; vm_compute; reflexivity.
  - apply walk_ok_intro; vm_compute; reflexivity.
  - vm_compute. reflexivity.
  - eexists. vm_compute. reflexivity.
  - apply walk_ok_intro; vm_compute; reflexivity.
  - discriminate.
  - reflexivity.
Defined.

(** * Further properties of the code *)

(** ** Access: what it allocates and what it leaves alone *)

Section access_frame.
Context {host : Host}.

Lemma Ww_inv a c st v st' :
  Ww a c st = Ok v st' →
  (v = VUndef ∧ st' = st)
  ∨ (∃ l p, v = VObj l ∧ a = VStr p)
  ∨ (∃ l n r, v = VObj l ∧ a = VNum n ∧ _properties st !! n = Some r
              ∧ l = fresh (dom (heap st))
              ∧ st' = with_heap (<[l := default ∅ (heap st !! r)]> (heap st)) st).
Proof.
  unfold Ww. destruct a as [| | |n|p| |]; try (intros [= <- <-]; by left).
  - destruct (_properties st !! n) as [r|] eqn:Hn; [|intros [= <- <-]; by left].
    unfold ww.new. intros [= <- <-]. right; right.
    by exists (fresh (dom (heap st))), n, r.
  - destruct (blank p); [intros [= <- <-]; by left|].
    destruct (_getProperty _ _ _ _); [|done].
    destruct (_Property.new _ _ _ _) as [r st1]. destruct (ww.new r st1) as [l st2].
    intros [= <- <-]. right; left. by exists l, p.
Qed.

Lemma Ww_TypeError a c st st' : Ww a c st = TypeError st' → st' = st.
Proof.
  unfold Ww. destruct a as [| | |n|p| |]; try done.
  - by destruct (_properties st !! n).
  - destruct (blank p); [done|].
    pose proof (_getProperty_read_only (VStr p) (_getContext c) (heap st)) as Hro.
    destruct (_getProperty _ _ _ _) as [v h|h]; simpl in Hro; subst h.
    + destruct (_Property.new _ _ _ _) as [r st1]. by destruct (ww.new r st1).
    + rewrite with_heap_id. by intros [= <-].
Qed.

(** X1.  [ww(...)] never modifies an object that exists and never touches
    the pending set or the pause flag; records already registered stay
    registered.  It returns [undefined] or a wrapper at a location that
    was free, and whenever it returns [undefined] or throws, the whole
    state is as before. *)
Theorem Ww_frame a c st :
  ids_issued st →
  let out := Ww a c st in
  (∀ l o, heap st !! l = Some o → heap (state_of out) !! l = Some o)
  ∧ _propertiesUnready (state_of out) = _propertiesUnready st
  ∧ _isPaused (state_of out) = _isPaused st
  ∧ (∀ n r, _properties st !! n = Some r → _properties (state_of out) !! n = Some r)
  ∧ (throws out = true ∨ value_of out = VUndef → state_of out = st)
  ∧ (throws out = false →
     value_of out = VUndef ∨ ∃ l, value_of out = VObj l ∧ heap st !! l = None).
Proof.
  intros Hids out. subst out.
  destruct (Ww a c st) as [v st'|st'] eqn:HW; simpl.
  2:{ apply Ww_TypeError in HW as ->. repeat split; eauto. }
  destruct (Ww_inv _ _ _ _ _ HW) as [[-> ->]|[(l & p & -> & ->)|(l & n & r & -> & -> & Hn & -> & ->)]].
  - repeat split; eauto.
  - destruct (Ww_string_layout _ _ _ _ _ HW)
      as (r & o & Hr & Hl & Hne & Hh & Hp & Hi & Hu & _).
    split; [|split; [done|split; [|split; [|split]]]].
    + intros l' o' Hl'. rewrite Hh, !lookup_insert_ne; [done|congruence..].
    + destruct (Ww_string_inv _ _ _ _ _ HW) as (v0 & _ & _ & Hst). by rewrite Hst.
    + intros n r' Hn. rewrite Hp. destruct Hids as [_ Hreg].
      specialize (Hreg n (ex_intro _ r' Hn)). rewrite lookup_insert_ne; [done|lia].
    + intros [|]; done.
    + intros _. right. by exists l.
  - split; [|split; [done|split; [done|split; [done|split]]]].
    + intros l' o' Hl'. simpl. rewrite lookup_insert_ne; [done|].
      intros E. pose proof (fresh_lookup (heap st)) as Hf. congruence.
    + intros [|]; done.
    + intros _. right. eexists. split; [done|apply fresh_lookup].
Qed.
End access_frame.

Section ids.
Context {host : Host}.

(** X2.  Two accesses by path, to the same path or not, get the ids [n]
    and [n + 1] taken from the counter, two distinct records that carry
    their own id and two distinct wrappers; the counter has advanced by
    two and both records, like all older ones, are in the registry. *)
Theorem Ww_issues_fresh_ids p c p' c' st l1 st1 l2 st2 :
  ids_issued st →
  Ww (VStr p) c st = Ok (VObj l1) st1 →
  Ww (VStr p') c' st1 = Ok (VObj l2) st2 →
  ∃ r1 r2,
    _properties st2 !! _i st = Some r1
    ∧ _properties st2 !! (_i st + 1) = Some r2
    ∧ r1 ≠ r2 ∧ l1 ≠ l2
    ∧ field (heap st2) r1 "id" = Some (VNum (_i st))
    ∧ field (heap st2) r2 "id" = Some (VNum (_i st + 1))
    ∧ field (heap st2) l1 "id" = Some (VNum (_i st))
    ∧ field (heap st2) l2 "id" = Some (VNum (_i st + 1))
    ∧ _i st2 = _i st + 2
    ∧ ∀ n r, _properties st !! n = Some r → _properties st2 !! n = Some r.
Proof.
  intros [H0 Hreg] H1 H2.
  destruct (Ww_string_layout _ _ _ _ _ H1)
    as (r1 & o1 & Hr1 & Hl1 & Hne1 & Hh1 & Hp1 & Hi1 & _ & _ & _ & Hid1 & _).
  destruct (Ww_string_layout _ _ _ _ _ H2)
    as (r2 & o2 & Hr2 & Hl2 & Hne2 & Hh2 & Hp2 & Hi2 & _ & _ & _ & Hid2 & _).
  assert (heap st1 !! r1 = Some o1) as Hr1' by (by rewrite Hh1, lookup_insert_ne, lookup_insert_eq).
  assert (heap st1 !! l1 = Some o1) as Hl1' by (by rewrite Hh1, lookup_insert_eq).
  rewrite Hi1 in Hid2.
  exists r1, r2. rewrite Hp2, Hi2, Hi1, Hp1, Hh2.
  split; [rewrite lookup_insert_ne by lia; apply lookup_insert_eq|].
  split; [apply lookup_insert_eq|].
  split; [congruence|]. split; [congruence|].
  unfold field.
  split; [rewrite !lookup_insert_ne by congruence; by rewrite Hr1'|].
  split; [rewrite lookup_insert_ne, lookup_insert_eq by congruence; exact Hid2|].
  split; [rewrite !lookup_insert_ne by congruence; by rewrite Hl1'|].
  split; [rewrite lookup_insert_eq; exact Hid2|].
  split; [lia|].
  intros n r Hn. specialize (Hreg n (ex_intro _ r Hn)).
  rewrite !lookup_insert_ne by lia. done.
Qed.

(** X3.  [getValue] and [getType] only read: whatever they return, and
    also when they throw, the state is as before. *)
Theorem getValue_getType_read_only this d st :
  state_of (ww.getValue this d st) = st ∧ state_of (ww.getType this st) = st.
Proof.
  assert (∀ d', state_of (ww.getValue this d' st) = st) as Hget.
  { intros d'. unfold ww.getValue.
    destruct (get_prop _ _ "path") as [path|]; [|done].
    destruct (get_prop _ _ "context") as [context|]; [|done].
    pose proof (_getProperty_read_only path context (heap st)) as Hro.
    destruct (_getProperty path context VUndef (heap st)) as [v h|h];
      simpl in Hro; subst h; [|apply with_heap_id].
    destruct (negb (is_undefined v)); apply with_heap_id. }
  split; [apply Hget|]. unfold ww.getType. specialize (Hget VUndef).
  by destruct (ww.getValue this VUndef st).
Qed.
End ids.

Lemma key_string_inj (i j : Z) : VStr (pretty i) = VStr (pretty j) → i = j.
Proof. intros [= H]. by apply (inj pretty). Qed.

(** X4.  [getIds] returns the pending ids as the strings that name them,
    each once and in the ascending order of the ids, so as many strings as
    there are pending entries and never a number: after [set(n, cb)] has
    accepted the number [n], the list holds the decimal string of [n] and
    not [n] itself.  A refused [set] changes nothing. *)
Theorem getIds_lists_key_strings st :
  (∀ v, v ∈ PropertiesUnready.getIds st
        ↔ ∃ i, v = VStr (pretty i) ∧ is_Some (_propertiesUnready st !! i))
  ∧ (∀ i, VStr (pretty i) ∈ PropertiesUnready.getIds st
          ↔ is_Some (_propertiesUnready st !! i))
  ∧ NoDup (PropertiesUnready.getIds st)
  ∧ length (PropertiesUnready.getIds st) = size (_propertiesUnready st)
  ∧ (∃ ids, PropertiesUnready.getIds st = (λ i, VStr (pretty i)) <$> ids
            ∧ Sorted Z.le ids)
  ∧ (∀ id cb st', PropertiesUnready.set id cb st = (true, st') →
       ∃ n, id = VNum n ∧ is_Some (_properties st !! n)
            ∧ VStr (pretty n) ∈ PropertiesUnready.getIds st'
            ∧ id ∉ PropertiesUnready.getIds st')
  ∧ (∀ id cb st', PropertiesUnready.set id cb st = (false, st') → st' = st).
Proof.
  assert (∀ s v, v ∈ PropertiesUnready.getIds s
                 ↔ ∃ i, v = VStr (pretty i) ∧ is_Some (_propertiesUnready s !! i)) as Hmem.
  { intros s v. unfold PropertiesUnready.getIds. rewrite list_elem_of_fmap.
    by setoid_rewrite keys_pending. }
  assert (∀ s i, VStr (pretty i) ∈ PropertiesUnready.getIds s
                 ↔ is_Some (_propertiesUnready s !! i)) as Hstr.
  { intros s i. rewrite Hmem. split; [|eauto].
    by intros (j & <-%key_string_inj & Hj). }
  split; [apply Hmem|]. split; [apply Hstr|]. split; [|split; [|split; [|split]]].
  - unfold PropertiesUnready.getIds. apply NoDup_fmap_2; [|apply keys_NoDup].
    intros i j. apply key_string_inj.
  - unfold PropertiesUnready.getIds, PropertiesUnready.keys.
    rewrite length_fmap, merge_sort_Permutation. by rewrite <- size_dom.
  - eexists. split; [done|]. apply Sorted_merge_sort. intros x y. lia.
  - intros id cb st'. unfold PropertiesUnready.set. destruct id; try done.
    destruct (is_function cb); [|done].
    destruct (_properties st !! n) as [r|] eqn:Hr; [|done].
    intros [= <-]. exists n. split; [done|]. split; [eauto|]. split.
    + apply Hstr. simpl. rewrite lookup_insert_eq. eauto.
    + rewrite Hmem. by intros (j & [=] & _).
  - intros id cb st'. unfold PropertiesUnready.set. destruct id; try (by intros [= <-]).
    destruct (is_function cb); [|by intros [= <-]].
    destruct (_properties st !! n); [done|by intros [= <-]].
Qed.

(** ** Access followed by a read or a call *)

Section access_then.
Context {host : Host}.

Lemma walk_result_hidden r ev segs prev h v h' :
  hidden r h → ¬ refers prev r → walk false ev segs prev h = Ok v h' → ¬ refers v r.
Proof.
  intros Hh; revert prev; induction segs as [|k rest IH]; intros prev Hprev; simpl.
  { by intros [= <- <-]. }
  destruct (get_prop h prev k) as [p|] eqn:Hget; [|done].
  destruct (is_undefined p); [intros [= <- <-]; by intros [|]|].
  apply IH. by eapply get_prop_hidden.
Qed.

(** An object put at a location that nothing refers to does not change
    what a path resolves to. *)
Lemma walk_alloc_frame r o ev segs prev h :
  hidden r h → ¬ refers prev r →
  walk false ev segs prev (<[r := o]> h)
  = match walk false ev segs prev h with
    | Ok v _ => Ok v (<[r := o]> h)
    | TypeError _ => TypeError (<[r := o]> h)
    end.
Proof.
  intros Hh; revert prev; induction segs as [|k rest IH]; intros prev Hprev; simpl; [done|].
  assert (get_prop (<[r := o]> h) prev k = get_prop h prev k) as ->.
  { destruct prev as [| | | | |l|l]; try done; unfold get_prop;
      rewrite lookup_insert_ne; try done; intros ->; apply Hprev; by (left + right). }
  destruct (get_prop h prev k) as [p|] eqn:Hget; [|done].
  destruct (is_undefined p); [done|]. apply IH. by eapply get_prop_hidden.
Qed.

(** X5.  In a heap without dangling references, right after [ww(p, c)]
    the wrapper's [value] field holds what the path resolved to and its
    [type] field the [typeof] of that; [getValue(d)] on it returns that
    value, or [d] when the path did not resolve, and [getType()] returns
    that type. *)
Theorem access_then_getValue p c st l st1 d :
  Ww (VStr p) c st = Ok (VObj l) st1 →
  no_dangling (heap st) →
  allocated (heap st) (_getContext c) →
  ∃ v,
    walk false VUndef (split_on dot p) (_getContext c) (heap st) = Ok v (heap st)
    ∧ field (heap st1) l "value" = Some v
    ∧ field (heap st1) l "type" = Some (VStr (typeof v))
    ∧ ww.getValue (VObj l) d st1 = Ok (if is_undefined v then d else v) st1
    ∧ ww.getType (VObj l) st1 = Ok (VStr (typeof v)) st1.
Proof.
  intros HW Hnd Hctx.
  destruct (Ww_string_inv _ _ _ _ _ HW) as (v & Hw & Hl & Hst). cbv zeta in Hl, Hst.
  set (r := fresh (dom (heap st))) in *.
  set (o := ({[ "context" := _getContext c; "id" := VNum (_i st); "path" := VStr p;
                "type" := VStr (typeof v); "value" := v ]} : gmap string val)) in *.
  assert (heap st !! r = None) as Hr by apply fresh_lookup.
  assert (<[r := o]> (heap st) !! l = None) as Hl' by (rewrite Hl; apply fresh_lookup).
  assert (r ≠ l) as Hne by (intros <-; by rewrite lookup_insert_eq in Hl').
  rewrite lookup_insert_ne in Hl' by done.
  assert (∀ x, heap st !! x = None → ¬ refers (_getContext c) x) as Hcx.
  { intros x Hx Hrf. destruct (Hctx x Hrf) as [? ?]. congruence. }
  pose proof (Hnd r Hr) as Hhr. pose proof (Hnd l Hl') as Hhl.
  assert (hidden l (<[r := o]> (heap st))) as Hhl1.
  { destruct Hhl as [Hown Hinh]. split; [|done].
    apply map_Forall_insert_2; [|done]. unfold o.
    repeat (apply map_Forall_insert_2; [try (intros [|]; done)|]).
    - by apply Hcx.
    - eapply (walk_result_hidden l); [split; [exact Hown|exact Hinh]| |exact Hw].
      by apply Hcx.
    - apply map_Forall_empty. }
  assert (walk false VUndef (split_on dot p) (_getContext c) (heap st1) = Ok v (heap st1)) as Hw1.
  { rewrite Hst. cbn [heap].
    rewrite (walk_alloc_frame l) by (by try apply Hcx).
    rewrite (walk_alloc_frame r) by (by try apply Hcx). by rewrite Hw. }
  assert (∀ k x, o !! k = Some x → get_prop (heap st1) (VObj l) k = Some x) as G.
  { intros k x Hx. apply get_prop_field. unfold field. rewrite Hst. cbn [heap].
    by rewrite lookup_insert_eq. }
  assert (∀ d', ww.getValue (VObj l) d' st1 = Ok (if is_undefined v then d' else v) st1) as Hg.
  { intros d'. unfold ww.getValue. rewrite (G "path" (VStr p)), (G "context" (_getContext c)) by done.
    unfold _getProperty. change (is_undefined VUndef) with true. cbn [negb].
    rewrite Hw1, with_heap_id. by destruct (is_undefined v). }
  exists v. split; [done|]. unfold field. rewrite Hst. cbn [heap]. rewrite lookup_insert_eq.
  split; [done|]. split; [done|]. rewrite <- Hst. split; [apply Hg|].
  unfold ww.getType. rewrite Hg. by destruct (is_undefined v) eqn:Hu;
    [apply is_undefined_true in Hu as ->|].
Qed.
End access_then.

(** ** [apply] and [call] *)

Lemma Sorted_le_seq s m : Sorted Nat.le (seq s m).
Proof.
  revert s; induction m as [|m IH]; intros s; simpl; [constructor|].
  constructor; [apply IH|]. destruct m; simpl; constructor. unfold Nat.le. lia.
Qed.

Lemma omap_seq_lookup (f : nat → option val) (xs : list val) start :
  (∀ j, (j < length xs)%nat → f (start + j)%nat = xs !! j) →
  omap f (seq start (length xs)) = xs.
Proof.
  revert start f; induction xs as [|x xs IH]; intros start f Hf; simpl; [done|].
  pose proof (Hf 0%nat ltac:(simpl; lia)) as H0. rewrite Nat.add_0_r in H0.
  rewrite H0. simpl. f_equal. apply IH. intros j Hj.
  specialize (Hf (S j) ltac:(simpl; lia)). by rewrite Nat.add_succ_r in Hf.
Qed.

(** What the loop of [call] collects: the first argument as receiver, the
    others, in order, as arguments. *)
Lemma call_arguments (args : list val) :
  let a : gmap nat val := map_seq 0 args in
  default VUndef (a !! 0%nat) = default VUndef (head args)
  ∧ omap (λ i, delete 0%nat a !! i)
         (merge_sort Nat.le (elements (dom (delete 0%nat a))))
    = tail args.
Proof.
  intros a. split.
  { unfold a. rewrite lookup_map_seq_0. by destruct args. }
  assert (merge_sort Nat.le (elements (dom (delete 0%nat a)))
          = seq 1 (length (tail args))) as ->.
  { apply (Sorted_unique Nat.le).
    - apply Sorted_merge_sort. intros x y. unfold Nat.le. lia.
    - apply Sorted_le_seq.
    - rewrite merge_sort_Permutation. apply NoDup_Permutation.
      + apply NoDup_elements.
      + apply NoDup_seq.
      + intros i. rewrite elem_of_elements, elem_of_dom, elem_of_seq.
        unfold a. destruct (decide (i = 0%nat)) as [->|Hi].
        * rewrite lookup_delete_eq. split; [by intros [? ?]|lia].
        * rewrite lookup_delete_ne by done. rewrite lookup_map_seq_0.
          rewrite lookup_lt_is_Some. destruct args; simpl; lia. }
  apply omap_seq_lookup. intros j Hj. unfold a.
  rewrite lookup_delete_ne by lia. rewrite lookup_map_seq_0.
  destruct args; [simpl in Hj; lia|done].
Qed.

Section invoke_value.
Context {host : Host} {caller : Caller}.

Lemma call_as_apply this t args st :
  ww.call this (t :: args) st = ww.apply this t (Some args) st
  ∧ ww.call this [] st = ww.apply this VUndef None st.
Proof.
  unfold ww.call, ww.apply.
  destruct (call_arguments (t :: args)) as [Ht Ha].
  destruct (call_arguments []) as [Ht0 Ha0]. cbv zeta in *.
  split.
  - destruct (get_prop (heap st) this "type"); [|done].
    destruct (negb _); [done|]. by rewrite Ht, Ha.
  - destruct (get_prop (heap st) this "type"); [|done].
    destruct (negb _); [done|]. by rewrite Ht0, Ha0.
Qed.

(** X6.  [call(t, a1, ..., an)] is [apply(t, [a1, ..., an])], and [call()]
    is [apply()]: the first argument is the receiver and the others are
    forwarded in order. *)
Theorem call_is_apply this t args st :
  ww.call this (t :: args) st = ww.apply this t (Some args) st
  ∧ ww.call this [] st = ww.apply this VUndef None st.
Proof.
  unfold ww.call, ww.apply.
  destruct (call_arguments (t :: args)) as [Ht Ha].
  destruct (call_arguments []) as [Ht0 Ha0]. cbv zeta in *.
  split.
  - destruct (get_prop (heap st) this "type"); [|done].
    destruct (negb _); [done|]. by rewrite Ht, Ha.
  - destruct (get_prop (heap st) this "type"); [|done].
    destruct (negb _); [done|]. by rewrite Ht0, Ha0.
Qed.

(** X7.  For the wrapper that [ww(p, c)] returns, as long as the wrapper
    itself is not modified: when the path resolved to something that is
    not a function (or to nothing), [apply] and [call] return [false] and
    change nothing; when it resolved to a function, they call that
    function, the one found at access time whatever the path resolves to
    by now, with the receiver and arguments given, and return [true] when
    the call has returned. *)
Theorem apply_call_after_access p c st l st1 st2 :
  Ww (VStr p) c st = Ok (VObj l) st1 →
  heap st2 !! l = heap st1 !! l →
  ∃ v,
    walk false VUndef (split_on dot p) (_getContext c) (heap st) = Ok v (heap st)
    ∧ (is_function v = false →
       ∀ t args cargs,
         ww.apply (VObj l) t args st2 = Ok (VBool false) st2
         ∧ ww.call (VObj l) cargs st2 = Ok (VBool false) st2)
    ∧ (is_function v = true →
       ∀ t args,
         let out :=
           if apply_throws v t (default [] args) st2
           then TypeError (apply_fn v t (default [] args) st2)
           else Ok (VBool true) (apply_fn v t (default [] args) st2) in
         ww.apply (VObj l) t args st2 = out
         ∧ ww.call (VObj l) (t :: default [] args) st2 = out).
Proof.
  intros HW Hsame.
  destruct (Ww_string_layout _ _ _ _ _ HW)
    as (r & o & _ & _ & _ & Hh & _ & _ & _ & _ & _ & _ & v & Hw & Hty & Hval).
  assert (∀ k x, o !! k = Some x → get_prop (heap st2) (VObj l) k = Some x) as G.
  { intros k x Hx. apply get_prop_field. unfold field.
    by rewrite Hsame, Hh, lookup_insert_eq. }
  exists v. split; [done|].
  assert (∀ t args, ww.apply (VObj l) t args st2
            = if is_function v
              then if apply_throws v t (default [] args) st2
                   then TypeError (apply_fn v t (default [] args) st2)
                   else Ok (VBool true) (apply_fn v t (default [] args) st2)
              else Ok (VBool false) st2) as Happly.
  { intros t args. unfold ww.apply. rewrite (G _ _ Hty), (G _ _ Hval).
    destruct (is_function v) eqn:Hf.
    - by apply is_function_true in Hf as [f ->].
    - rewrite bool_decide_eq_false_2; [done|].
      intros [= E]. unfold is_function in Hf. by rewrite E in Hf. }
  split.
  - intros Hf t args cargs. split; [by rewrite Happly, Hf|].
    destruct cargs as [|t' cargs].
    + rewrite (proj2 (call_as_apply _ VUndef [] st2)), Happly. by rewrite Hf.
    + rewrite (proj1 (call_as_apply _ t' cargs st2)), Happly. by rewrite Hf.
  - intros Hf t args out. split; [by rewrite Happly, Hf|].
    rewrite (proj1 (call_as_apply _ t (default [] args) st2)), Happly. by rewrite Hf.
Qed.
End invoke_value.

(** ** [extend] on the context graph *)

Section extend_more.
Context {host : Host}.

(** A new empty object changes no read. *)
Lemma alloc_empty_reads (h : gmap nat (gmap string val)) v k :
  get_prop (<[fresh (dom h) := ∅]> h) v k = get_prop h v k.
Proof.
  assert (∀ r, refers v r → get_prop (<[fresh (dom h) := ∅]> h) v k = get_prop h v k) as Hr.
  { intros r Hv. rewrite !(get_prop_ref _ _ r) by done.
    replace (field (<[fresh (dom h) := ∅]> h) r k) with (field h r k); [done|].
    unfold field.
    destruct (decide (fresh (dom h) = r)) as [<-|Hne]; [|by rewrite lookup_insert_ne].
    rewrite lookup_insert_eq. by rewrite fresh_lookup. }
  destruct v as [| | | | |l|l]; try done; apply (Hr l); by (left + right).
Qed.

(** X16.  On a path that resolves to a value, [extend] returns that value
    and writes nothing, whatever extension value it is given; without an
    argument it only leaves behind the empty object it had prepared. *)
Theorem extend_returns_existing this value st s c v :
  get_prop (heap st) this "path" = Some (VStr s) →
  get_prop (heap st) this "context" = Some c →
  walk false VUndef (split_on dot s) c (heap st) = Ok v (heap st) →
  v ≠ VUndef →
  ww.extend this value st
  = Ok v (if is_undefined value
          then with_heap (<[fresh (dom (heap st)) := ∅]> (heap st)) st
          else st).
Proof.
  intros Hpath Hctx Hw Hv. unfold ww.extend.
  destruct (is_undefined value) eqn:Hu.
  - rewrite !alloc_empty_reads, Hpath, Hctx. unfold _getProperty.
    change (is_undefined (VObj _)) with false. cbn [negb].
    assert (grows (heap st) (<[fresh (dom (heap st)) := ∅]> (heap st))) as Hg
      by (intros x k y Hy _; by rewrite alloc_empty_reads).
    pose proof (walk_stable VUndef VUndef _ _ _ _ _ Hg Hw Hv) as Hw'.
    by rewrite (walk_resolved_extend _ (VObj (fresh (dom (heap st)))) _ _ _ _ Hw' Hv).
  - rewrite Hpath, Hctx. unfold _getProperty. rewrite Hu. cbn [negb].
    rewrite (walk_resolved_extend _ value _ _ _ _ Hw Hv). cbn [lift_heap].
    by rewrite with_heap_id.
Qed.

Lemma walk_extend_last ev segs k prev h p :
  ev ≠ VUndef →
  walk false VUndef segs prev h = Ok p h →
  get_prop h p k = Some VUndef →
  walk true ev (segs ++ [k]) prev h
  = match set_prop h p k ev with
    | Some h' => Ok ev h'
    | None => TypeError h
    end.
Proof.
  intros Hev; revert prev; induction segs as [|k' rest IH]; intros prev; simpl.
  - intros [= ->] Hk. rewrite Hk. change (is_undefined VUndef) with true. cbv iota.
    destruct (set_prop h p k ev) as [h'|] eqn:Hset; [|done].
    by rewrite (get_set_prop _ _ _ _ _ Hset).
  - destruct (get_prop h prev k') as [q|] eqn:Hget; [|done].
    destruct (is_undefined q) eqn:Hq; [|by apply IH].
    intros [= <-] Hk. done.
Qed.

(** X9.  When every segment of the path but the last resolves and the
    last one is missing, [extend(v)] stores [v] under the last segment of
    the parent if the parent is an object or a function, and returns [v]:
    the parent then holds [v] under that segment, [getValue] on the same
    wrapper returns [v], and registry, counter and pending set are as
    before.  If the parent is a primitive, the call throws and the state
    is as before. *)
Theorem extend_creates_last_segment this value st s segs k c parent :
  value ≠ VUndef →
  get_prop (heap st) this "path" = Some (VStr s) →
  get_prop (heap st) this "context" = Some c →
  split_on dot s = segs ++ [k] →
  walk false VUndef segs c (heap st) = Ok parent (heap st) →
  get_prop (heap st) parent k = Some VUndef →
  (∀ l, refers parent l →
     ∃ st', ww.extend this value st = Ok value st'
       ∧ field (heap st') l k = Some value
       ∧ (∀ d, ww.getValue this d st' = Ok value st')
       ∧ _properties st' = _properties st ∧ _i st' = _i st
       ∧ _propertiesUnready st' = _propertiesUnready st)
  ∧ ((∀ l, ¬ refers parent l) → ww.extend this value st = TypeError st).
Proof.
  intros Hvalue Hpath Hctx Hsplit Hw Hk.
  pose proof Hvalue as Hu. apply is_undefined_false in Hu.
  assert (walk true value (split_on dot s) c (heap st)
          = match set_prop (heap st) parent k value with
            | Some h' => Ok value h'
            | None => TypeError (heap st)
            end) as Hext
    by (rewrite Hsplit; by apply walk_extend_last).
  assert (ww.extend this value st
          = lift_heap (walk true value (split_on dot s) c (heap st)) st) as ->.
  { unfold ww.extend. rewrite Hu, Hpath, Hctx. unfold _getProperty. by rewrite Hu. }
  split.
  - intros l Hl. rewrite (set_prop_ref _ _ l) in Hext by done.
    set (h' := <[l := <[k := value]> (default ∅ (heap st !! l))]> (heap st)) in *.
    assert (grows (heap st) h') as Hg
      by (eapply set_prop_grows; [exact Hk|by apply set_prop_ref]).
    assert (c ≠ VUndef) as Hc.
    { intros ->. destruct segs as [|k' rest]; simpl in Hw; [|done].
      injection Hw as <-. by destruct Hl. }
    destruct (walk_extend_resolves value VUndef _ _ _ _ _ Hvalue Hc Hext) as [_ Hres].
    exists (with_heap h' st). rewrite Hext. cbn [lift_heap].
    split; [done|]. split; [|split; [|done]].
    + cbn [heap with_heap]. unfold h'. rewrite field_store. by rewrite decide_True.
    + intros d. unfold ww.getValue. cbn [heap with_heap].
      rewrite (Hg _ _ _ Hpath), (Hg _ _ _ Hctx) by done.
      unfold _getProperty. change (is_undefined VUndef) with true. cbn [negb].
      rewrite Hres, Hu. cbn [negb]. by destruct st.
  - intros Hprim. rewrite Hext.
    destruct parent; simpl; try (by rewrite with_heap_id);
      exfalso; eapply Hprim; by (left + right).
Qed.
End extend_more.

(** ** Ticks *)

Section ticks.
Context {host : Host}.

Lemma process_entry_poisoned i w :
  poisoned_entry (js w) i → PropertiesUnready.process_entry i w = TypeError w.
Proof.
  intros [[cb Hcb] (r & s & c & Hr & Hp & Hc & Hnull)].
  unfold PropertiesUnready.process_entry. rewrite Hcb, Hr, Hp, Hc.
  unfold _getProperty. change (is_undefined VUndef) with true. cbn [negb].
  destruct (walk_throws VUndef (split_on dot s) c (heap (js w))) as [Hthrow _].
  rewrite (Hthrow (reaches_null_throw _ _ _ Hnull)). by rewrite with_heap_id, world_eta.
Qed.

(** X10.  A tick over entries none of whose paths resolves returns
    normally and changes nothing, and so does any number of timer
    callbacks. *)
Theorem idle_tick w :
  (∀ i, idle_entry (js w) i) →
  PropertiesUnready.process w = Ok tt w ∧ ∀ n, timer_fires n w = Ok tt w.
Proof.
  intros Hidle.
  assert (PropertiesUnready.process w = Ok tt w) as Hp
    by (apply process_loop_idle; auto).
  split; [done|]. induction n as [|n IH]; [done|].
  cbn [timer_fires]. unfold Interval._callback.
  destruct (negb (_isPaused (js w))); by rewrite ?Hp.
Qed.

(** X11.  A pending entry whose walk reads through [null] makes the tick
    throw: if the other entries are idle, the tick changes nothing, calls
    nothing and leaves every entry pending; the timer callback that ran
    it does not arm the timer again, so no later tick runs. *)
Theorem poisoned_entry_stops_ticks i w :
  poisoned_entry (js w) i →
  (∀ j, j ≠ i → idle_entry (js w) j) →
  PropertiesUnready.process w = TypeError w
  ∧ (_isPaused (js w) = false → ∀ n, timer_fires (S n) w = TypeError w).
Proof.
  intros Hpoison Hidle.
  assert (PropertiesUnready.process w = TypeError w) as Hp.
  { unfold PropertiesUnready.process.
    assert (i ∈ PropertiesUnready.keys (js w)) as Hin by apply keys_pending, Hpoison.
    assert (NoDup (PropertiesUnready.keys (js w))) as Hnd by apply keys_NoDup.
    apply list_elem_of_split in Hin as (pre & rest & Hsplit). rewrite Hsplit in *.
    apply NoDup_app in Hnd as (_ & Hnotin & _).
    assert (∀ j, j ∈ pre → idle_entry (js w) j) as Hpre.
    { intros j Hj. apply Hidle. intros ->. apply (Hnotin i Hj). left. }
    clear Hsplit Hnotin. induction pre as [|j pre IH]; simpl.
    - by rewrite process_entry_poisoned.
    - rewrite process_entry_idle by (apply Hpre; left).
      apply IH. intros j' Hj'. apply Hpre. by right. }
  split; [done|]. intros Hrun n. cbn [timer_fires]. unfold Interval._callback.
  by rewrite Hrun, Hp.
Qed.

(** X12.  An iteration over a pending entry whose path resolves to [v]
    first stores [v] and [typeof v] in the registered record, changing no
    other field and no other object, then calls the callback once on that
    record itself, and finally, the call having returned, deletes the
    entry from what the callback has left; if the call throws, the
    iteration ends there, in the state the callback has left. *)
Theorem resolved_entry_fires i w cb r s c v :
  _propertiesUnready (js w) !! i = Some cb →
  is_function cb = true →
  _properties (js w) !! i = Some r →
  get_prop (heap (js w)) (VObj r) "path" = Some (VStr s) →
  get_prop (heap (js w)) (VObj r) "context" = Some c →
  walk false VUndef (split_on dot s) c (heap (js w)) = Ok v (heap (js w)) →
  v ≠ VUndef →
  let st2 := _Property.update r v (js w) in
  let st3 := run_fn cb (VObj r) st2 in
  let log := calls w ++ [mkInvocation (Some i) cb (VObj r) st2] in
  PropertiesUnready.process_entry i w
  = (if fn_throws cb (VObj r) st2
     then TypeError (mkWorld st3 log)
     else Ok tt (mkWorld (with_unready (delete i (_propertiesUnready st3)) st3) log))
  ∧ field (heap st2) r "value" = Some v
  ∧ field (heap st2) r "type" = Some (VStr (typeof v))
  ∧ (∀ k, k ≠ "value" → k ≠ "type" → field (heap st2) r k = field (heap (js w)) r k)
  ∧ (∀ l, l ≠ r → heap st2 !! l = heap (js w) !! l)
  ∧ _properties st2 = _properties (js w)
  ∧ _propertiesUnready st2 = _propertiesUnready (js w).
Proof.
  intros Hcb Hf Hr Hp Hc Hw Hv st2 st3 log. split.
  - unfold PropertiesUnready.process_entry. rewrite Hcb, Hr, Hp, Hc.
    unfold _getProperty. change (is_undefined VUndef) with true. cbn [negb].
    rewrite Hw. apply is_undefined_false in Hv. rewrite Hv. rewrite with_heap_id.
    unfold invoke. cbn [js calls].
    replace (_propertiesUnready (_Property.update r v (js w)))
      with (_propertiesUnready (js w)) by done.
    rewrite Hcb. change (default VUndef (Some cb)) with cb. rewrite Hf.
    fold st2. by destruct (fn_throws cb (VObj r) st2).
  - unfold st2, _Property.update, field. cbn [heap with_heap].
    rewrite lookup_insert_eq. cbn.
    split; [by rewrite lookup_insert_eq|].
    split; [by rewrite lookup_insert_ne, lookup_insert_eq|].
    split; [|split; [|done]].
    + intros k Hk1 Hk2. rewrite !lookup_insert_ne by done.
      by destruct (heap (js w) !! r).
    + intros l Hl. by rewrite lookup_insert_ne.
Qed.
End ticks.

Section tick_invariants.
Context {host : Host}.

Lemma returned_ids_fired log :
  (∀ f a st, fn_throws f a st = false) → returned_ids log = fired_ids log.
Proof.
  intros Hret. unfold returned_ids, fired_ids.
  induction log as [|inv log IH]; [done|]. cbn [omap list_omap]. by rewrite Hret, IH.
Qed.

(** X13.  With callbacks that leave the pending set alone, a tick removes
    from the pending set exactly the entries it has fired, and it fires
    only entries that were pending when it started.  Where a callback may
    throw, which ends the tick, the entries removed are those whose
    callback has returned. *)
Theorem tick_removes_what_it_fires w :
  (∀ f a st, _propertiesUnready (run_fn f a st) = _propertiesUnready st) →
  let w' := state_of (PropertiesUnready.process w) in
  ∃ new,
    calls w' = calls w ++ new
    ∧ (∀ i, _propertiesUnready (js w') !! i
            = if decide (i ∈ returned_ids new) then None
              else _propertiesUnready (js w) !! i)
    ∧ ((∀ f a st, fn_throws f a st = false) →
       ∀ i, _propertiesUnready (js w') !! i
            = if decide (i ∈ fired_ids new) then None
              else _propertiesUnready (js w) !! i)
    ∧ Forall (λ inv, ∃ i, inv_entry inv = Some i
                ∧ is_Some (_propertiesUnready (js w) !! i)) new.
Proof.
  intros Hframe w'. subst w'.
  cut (∃ new,
         calls (state_of (PropertiesUnready.process w)) = calls w ++ new
         ∧ (∀ i, _propertiesUnready (js (state_of (PropertiesUnready.process w))) !! i
                 = if decide (i ∈ returned_ids new) then None
                   else _propertiesUnready (js w) !! i)
         ∧ Forall (λ inv, ∃ i, inv_entry inv = Some i
                     ∧ is_Some (_propertiesUnready (js w) !! i)) new).
  { intros (new & Hc & Hp & Hall). exists new. split; [done|]. split; [done|].
    split; [|done]. intros Hret i. by rewrite Hp, returned_ids_fired. }
  unfold PropertiesUnready.process.
  generalize (PropertiesUnready.keys (js w)). intros ids.
  revert w; induction ids as [|j rest IH]; intros w.
  { exists []. cbn [PropertiesUnready.process_loop state_of]. rewrite app_nil_r.
    split; [done|]. split; [|constructor].
    intros i. destruct (decide (i ∈ returned_ids [])) as [Hin|]; [|done].
    by apply elem_of_nil in Hin. }
  cbn [PropertiesUnready.process_loop].
  destruct (process_entry_cases j w)
    as [[Hc Hp]|(cb & r & v & Hj & _ & _ & _ & Ho)].
  - destruct (PropertiesUnready.process_entry j w) as [[] w1|w1]; simpl in Hc, Hp.
    + destruct (IH w1) as (new & Hn & Hpend & Hall). exists new.
      rewrite Hn, Hc. split; [done|]. split.
      * intros i. by rewrite Hpend, Hp.
      * by rewrite <- Hp.
    + exists []. cbn [state_of]. rewrite app_nil_r, Hc, Hp.
      split; [done|]. split; [|constructor].
      intros i. destruct (decide (i ∈ returned_ids [])) as [Hin|]; [|done].
      by apply elem_of_nil in Hin.
  - cbv zeta in Ho. rewrite Ho. clear Ho.
    set (inv := mkInvocation (Some j) cb (VObj r) (_Property.update r v (js w))).
    destruct (fn_throws cb (VObj r) (_Property.update r v (js w))) eqn:Hthrow.
    + exists [inv]. cbn [state_of calls js]. split; [done|]. split.
      * intros i. unfold returned_ids. cbn [omap list_omap inv inv_cb inv_arg inv_before].
        rewrite Hthrow. rewrite Hframe.
        destruct (decide (i ∈ [])) as [Hin|]; [by apply elem_of_nil in Hin|done].
      * constructor; [exists j; eauto|constructor].
    + match goal with |- context [PropertiesUnready.process_loop rest ?w0] =>
        remember w0 as w1 eqn:Hw1 end.
      assert (_propertiesUnready (js w1) = delete j (_propertiesUnready (js w))) as Hp1.
      { rewrite Hw1. cbn [js]. unfold with_unready. cbn [_propertiesUnready].
        by rewrite Hframe. }
      assert (calls w1 = calls w ++ [inv]) as Hc1 by (by rewrite Hw1).
      clear Hw1.
      destruct (IH w1) as (new & Hn & Hpend & Hall).
      exists (inv :: new).
      rewrite Hn, Hc1, <- app_assoc. split; [done|]. split.
      * intros i. rewrite Hpend, Hp1.
        assert (returned_ids (inv :: new) = j :: returned_ids new) as ->.
        { unfold returned_ids. cbn [omap list_omap inv inv_cb inv_arg inv_before inv_entry].
          by rewrite Hthrow. }
        destruct (decide (i ∈ j :: returned_ids new)) as [Hin|Hnin];
          destruct (decide (i ∈ returned_ids new)) as [Hin'|Hnin']; try done.
        -- apply elem_of_cons in Hin as [->|?]; [apply lookup_delete_eq|done].
        -- exfalso. apply Hnin. by right.
        -- apply lookup_delete_ne. intros ->. apply Hnin. left.
      * constructor; [exists j; eauto|].
        eapply Forall_impl; [exact Hall|]. intros inv' (i & Hi & Hs). exists i. split; [done|].
        rewrite Hp1 in Hs.
        destruct (decide (j = i)) as [->|Hne]; [by rewrite lookup_delete_eq in Hs; destruct Hs|].
        by rewrite lookup_delete_ne in Hs.
Qed.

Lemma process_entry_pending_registered i w :
  (∀ f a st, pending_registered st → pending_registered (run_fn f a st)) →
  pending_registered (js w) →
  pending_registered (js (state_of (PropertiesUnready.process_entry i w))).
Proof.
  intros Hcb Hpr. unfold PropertiesUnready.process_entry.
  destruct (_propertiesUnready (js w) !! i) as [cb|] eqn:Hi; [|done].
  destruct (_properties (js w) !! i) as [r|]; [|done].
  destruct (get_prop _ _ "path") as [path|]; [|done].
  destruct (get_prop _ _ "context") as [context|]; [|done].
  destruct (_getProperty path context VUndef (heap (js w))) as [v h|h]; [|done].
  destruct (is_undefined v); [done|].
  unfold invoke. cbn [js calls].
  destruct (is_function _); [|done].
  destruct (fn_throws _ _ _); cbn [state_of js]; [by apply Hcb|].
  match goal with |- pending_registered (with_unready _ ?st3) =>
    assert (pending_registered st3) as H3 by (by apply Hcb) end.
  intros k [x Hk]. unfold with_unready in Hk. cbn [_propertiesUnready] in Hk.
  apply H3. destruct (decide (i = k)) as [->|Hne]; [by rewrite lookup_delete_eq in Hk|].
  rewrite lookup_delete_ne in Hk by done. eauto.
Qed.

(** X14.  Every pending id has a registered record: this holds when the
    module is loaded and is kept by [ww(...)], by [set], by [extend], and,
    with callbacks that keep it, by [ready] and by a tick.  So a tick
    never finds a pending id without its record. *)
Theorem pending_ids_are_registered :
  pending_registered init
  ∧ (∀ a c st, pending_registered st → pending_registered (state_of (Ww a c st)))
  ∧ (∀ id cb st, pending_registered st →
       pending_registered (PropertiesUnready.set id cb st).2)
  ∧ (∀ this value st, pending_registered st →
       pending_registered (state_of (ww.extend this value st)))
  ∧ ((∀ f a st, pending_registered st → pending_registered (run_fn f a st)) →
     (∀ this cb w, pending_registered (js w) →
        pending_registered (js (state_of (ww.ready this cb w))))
     ∧ (∀ w, pending_registered (js w) →
          pending_registered (js (state_of (PropertiesUnready.process w))))).
Proof.
  assert (∀ id cb st, pending_registered st →
            pending_registered (PropertiesUnready.set id cb st).2) as Hset.
  { intros id cb st Hpr. unfold PropertiesUnready.set. destruct id; try done.
    destruct (is_function cb); [|done].
    destruct (_properties st !! n) as [r|] eqn:Hr; [|done].
    intros k [x Hk]. simpl in *. destruct (decide (n = k)) as [->|Hne]; [eauto|].
    rewrite lookup_insert_ne in Hk by done. apply Hpr. eauto. }
  split; [|split; [|split; [exact Hset|split]]].
  - intros i [x Hx]. simpl in Hx. by rewrite lookup_empty in Hx.
  - intros a c st Hpr.
    destruct (Ww a c st) as [v st'|st'] eqn:HW; simpl;
      [|by apply Ww_TypeError in HW as ->].
    destruct (Ww_inv _ _ _ _ _ HW)
      as [[-> ->]|[(l & p & -> & ->)|(l & n & r & -> & -> & Hn & -> & ->)]]; [done| |done].
    destruct (Ww_string_layout _ _ _ _ _ HW) as (r & o & _ & _ & _ & _ & Hp & _ & Hu & _).
    intros k Hk. rewrite Hu in Hk. rewrite Hp.
    destruct (decide (_i st = k)) as [->|Hne]; [rewrite lookup_insert_eq; eauto|].
    rewrite lookup_insert_ne by done. by apply Hpr.
  - intros this value st Hpr. unfold ww.extend.
    destruct (if is_undefined value then _ else _) as [ev h].
    destruct (get_prop h this "path") as [path|]; [|done].
    destruct (get_prop h this "context") as [context|]; [|done].
    by destruct (_getProperty path context ev h).
  - intros Hcb. split.
    + intros this cb w Hpr. unfold ww.ready.
      destruct (get_prop _ _ "type") as [t|]; [|done].
      destruct (negb _).
      * unfold invoke. destruct (is_function cb); [|done].
        destruct (fn_throws _ _ _); simpl; by apply Hcb.
      * destruct (is_function cb); [|done].
        destruct (get_prop _ _ "id") as [id|]; [|done]. simpl. by apply Hset.
    + intros w. unfold PropertiesUnready.process.
      generalize (PropertiesUnready.keys (js w)). intros ids; revert w.
      induction ids as [|j rest IH]; intros w Hpr; [done|].
      cbn [PropertiesUnready.process_loop].
      pose proof (process_entry_pending_registered j w Hcb Hpr) as Hj.
      destruct (PropertiesUnready.process_entry j w) as [[] w1|w1]; [by apply IH|done].
Qed.

(** X15.  Pausing changes the pause flag and nothing else; while paused,
    any number of timer callbacks leave the state and the log as they
    are, pending entries included; after [resume] the next timer callback
    is a tick. *)
Theorem paused_timer_does_nothing st log n :
  timer_fires n (mkWorld (Interval.pause st) log) = Ok tt (mkWorld (Interval.pause st) log)
  ∧ heap (Interval.pause st) = heap st
  ∧ _properties (Interval.pause st) = _properties st
  ∧ _i (Interval.pause st) = _i st
  ∧ _propertiesUnready (Interval.pause st) = _propertiesUnready st
  ∧ Interval.resume (Interval.pause st) = Interval.resume st
  ∧ Interval._callback (mkWorld (Interval.resume (Interval.pause st)) log)
    = PropertiesUnready.process (mkWorld (Interval.resume st) log).
Proof.
  split; [|done]. induction n as [|n IH]; [done|].
  cbn [timer_fires]. unfold Interval._callback at 1. cbn. exact IH.
Qed.
End tick_invariants.

(** ** Worked instances of the further properties *)

Lemma allocated_b_spec h v : allocated_b h v = true → allocated h v.
Proof.
  intros Hb r [->| ->]; simpl in Hb; by apply bool_decide_eq_true in Hb.
Qed.

Lemma closed_heap_no_dangling {host : Host} h :
  closed_heap h → (∀ v k, allocated_b h (inherited v k) = true) → no_dangling h.
Proof.
  intros Hc Hi l Hl. split.
  - intros l' o Ho k v Hv Href.
    destruct (allocated_b_spec _ _ (Hc l' o Ho k v Hv) l Href) as [x Hx]. congruence.
  - intros v k Href. destruct (allocated_b_spec _ _ (Hi v k) l Href) as [x Hx]. congruence.
Qed.

Lemma ids_issued_st_mock o : ids_issued (st_mock o).
Proof.
  split; [discriminate|]. intros n [x Hx]. simpl in Hx.
  rewrite lookup_empty in Hx. discriminate Hx.
Qed.

(** X1 on [ww('a', mock)] with [mock = {}]: the pending set is as before. *)
Lemma Ww_frame_witness :
  _propertiesUnready (state_of (@Ww plain_host (VStr "a") mock (st_mock ∅)))
  = _propertiesUnready (st_mock ∅).
Proof.
  apply (@Ww_frame plain_host (VStr "a") mock (st_mock ∅) (ids_issued_st_mock ∅)).
Defined.

(** X2 on [ww('a', mock); ww('a', mock)]: the ids 0 and 1. *)
Lemma Ww_issues_fresh_ids_witness :
  let acc1 := @Ww plain_host (VStr "a") mock (st_mock ∅) in
  let acc2 := @Ww plain_host (VStr "a") mock (state_of acc1) in
  ∃ r1 r2, _properties (state_of acc2) !! 0 = Some r1
           ∧ _properties (state_of acc2) !! 1 = Some r2 ∧ r1 ≠ r2.
Proof.
  intros acc1 acc2.
  assert (acc1 = Ok (VObj 23%nat) (state_of acc1)) as H1
    by (apply outcome_ok; vm_compute; reflexivity).
  assert (acc2 = Ok (VObj 25%nat) (state_of acc2)) as H2
    by (apply outcome_ok; vm_compute; reflexivity).
  destruct (@Ww_issues_fresh_ids plain_host "a" mock "a" mock (st_mock ∅) _ _ _ _
              (ids_issued_st_mock ∅) H1 H2) as (r1 & r2 & Ha & Hb & Hne & _).
  exists r1, r2. split; [exact Ha|]. split; [exact Hb|exact Hne].
Defined.

(** X5 on [ww('a', mock).getValue()] with [mock = {a: true}]. *)
Lemma access_then_getValue_witness :
  let st := st_mock {[ "a" := VBool true ]} in
  let acc := @Ww plain_host (VStr "a") mock st in
  @ww.getValue plain_host (VObj 23%nat) VUndef (state_of acc)
  = Ok (VBool true) (state_of acc).
Proof.
  intros st acc.
  assert (acc = Ok (VObj 23%nat) (state_of acc)) as Hacc
    by (apply outcome_ok; vm_compute; reflexivity).
  destruct (@access_then_getValue plain_host "a" mock st 23%nat (state_of acc) VUndef Hacc)
    as (v & Hw & _ & _ & Hg & _).
  - apply closed_heap_no_dangling; [|reflexivity].
    apply (bool_decide_unpack _). vm_compute. reflexivity.
  - apply allocated_b_spec. vm_compute. reflexivity.
  - assert (walk (host := plain_host) false VUndef (split_on dot "a") (_getContext mock) (heap st)
            = Ok (VBool true) (heap st)) as Hw'
      by (apply walk_ok_intro; vm_compute; reflexivity).
    rewrite Hw' in Hw. injection Hw as <-. exact Hg.
Defined.

(** X7 on [ww('f', mock).apply(undefined, [1, 2])] with [mock = {f: cb1}]. *)
Lemma apply_call_after_access_witness :
  let st := st_mock {[ "f" := cb1 ]} in
  let acc := @Ww plain_host (VStr "f") mock st in
  @ww.apply plain_host counting_caller (VObj 23%nat) VUndef (Some [VNum 1; VNum 2])
    (state_of acc)
  = Ok (VBool true)
       (@apply_fn counting_caller cb1 VUndef [VNum 1; VNum 2] (state_of acc)).
Proof.
  intros st acc.
  assert (acc = Ok (VObj 23%nat) (state_of acc)) as Hacc
    by (apply outcome_ok; vm_compute; reflexivity).
  destruct (@apply_call_after_access plain_host counting_caller "f" mock st 23%nat
              (state_of acc) (state_of acc) Hacc eq_refl) as (v & Hw & _ & Hcall).
  assert (walk (host := plain_host) false VUndef (split_on dot "f") (_getContext mock) (heap st)
          = Ok cb1 (heap st)) as Hw'
    by (apply walk_ok_intro; vm_compute; reflexivity).
  rewrite Hw' in Hw. injection Hw as <-.
  exact (proj1 (Hcall eq_refl VUndef (Some [VNum 1; VNum 2]))).
Defined.

(** X9 on [ww('a.b', mock).extend(true)] with [mock = {a: {}}]. *)
Lemma extend_creates_last_segment_witness :
  let st := state_of (@Ww plain_host (VStr "a.b") mock st_nested) in
  ∃ st', @ww.extend plain_host (VObj 23%nat) (VBool true) st = Ok (VBool true) st'
    ∧ field (heap st') 11%nat "b" = Some (VBool true)
    ∧ @ww.getValue plain_host (VObj 23%nat) VUndef st' = Ok (VBool true) st'.
Proof.
  intros st.
  destruct (proj1 (@extend_creates_last_segment plain_host (VObj 23%nat) (VBool true) st
                     "a.b" ["a"] "b" mock (VObj 11%nat)
                     ltac:(discriminate)
                     ltac:(vm_compute; reflexivity)
                     ltac:(vm_compute; reflexivity)
                     ltac:(vm_compute; reflexivity)
                     ltac:(apply walk_ok_intro; vm_compute; reflexivity)
                     ltac:(vm_compute; reflexivity)) 11%nat)
    as (st' & He & Hf & Hg & _); [by left|].
  exists st'. split; [exact He|]. split; [exact Hf|apply Hg].
Defined.

(** X16 on [ww('a', mock).extend(false)] with [mock = {a: true}]. *)
Lemma extend_returns_existing_witness :
  let st := state_of (@Ww plain_host (VStr "a") mock (st_mock {[ "a" := VBool true ]})) in
  @ww.extend plain_host (VObj 23%nat) (VBool false) st = Ok (VBool true) st.
Proof.
  intros st.
  apply (@extend_returns_existing plain_host (VObj 23%nat) (VBool false) st "a" mock (VBool true)).
  - vm_compute. reflexivity.
  - vm_compute. reflexivity.
  - apply walk_ok_intro; vm_compute; reflexivity.
  - discriminate.
Defined.

Lemma sc_ready_pending :
  _propertiesUnready (js (@sc_ready plain_host)) = {[ 0 := cb1 ]}.
Proof. vm_compute. reflexivity. Qed.

(** X10 on [s.ready(cb1); process()] while [mock.a] is missing. *)
Lemma idle_tick_witness :
  @PropertiesUnready.process plain_host (@sc_ready plain_host) = Ok tt (@sc_ready plain_host).
Proof.
  apply (@idle_tick plain_host (@sc_ready plain_host)).
  intros i [cb Hcb]. rewrite sc_ready_pending in Hcb.
  apply lookup_singleton_Some in Hcb as [<- <-].
  exists 22%nat, "a", mock.
  split; [vm_compute; reflexivity|]. split; [vm_compute; reflexivity|].
  split; [vm_compute; reflexivity|]. apply walk_ok_intro; vm_compute; reflexivity.
Defined.

Lemma sc_null_pending_pending :
  _propertiesUnready (js (@sc_null_pending plain_host)) = {[ 0 := cb1 ]}.
Proof. vm_compute. reflexivity. Qed.

(** X11 on [ww('a.b', mock).ready(cb1); mock.a = null; process()]. *)
Lemma poisoned_entry_stops_ticks_witness :
  @PropertiesUnready.process plain_host (@sc_null_pending plain_host)
  = TypeError (@sc_null_pending plain_host).
Proof.
  apply (@poisoned_entry_stops_ticks plain_host 0 (@sc_null_pending plain_host)).
  - split; [rewrite sc_null_pending_pending; by eexists|].
    exists 22%nat, "a.b", mock.
    split; [vm_compute; reflexivity|]. split; [vm_compute; reflexivity|].
    split; [vm_compute; reflexivity|].
    change (split_on dot "a.b") with ["a"; "b"].
    apply (reaches_null_step _ _ _ _ VNull); [vm_compute; reflexivity|discriminate|].
    constructor.
  - intros j Hj [cb Hcb]. rewrite sc_null_pending_pending in Hcb.
    apply lookup_singleton_Some in Hcb as [<- _]. by destruct Hj.
Defined.

(** X12 on the worked run, where [mock.a] has become 42. *)
Lemma resolved_entry_fires_witness :
  let w := @sc_before_tick plain_host in
  calls (state_of (@PropertiesUnready.process_entry plain_host 0 w))
  = calls w ++ [mkInvocation (Some 0) cb1 (VObj 22%nat)
                  (_Property.update 22%nat (VNum 42) (js w))].
Proof.
  intros w.
  destruct (@resolved_entry_fires plain_host 0 w cb1 22%nat "a" mock (VNum 42))
    as (Hfire & _).
  - vm_compute. reflexivity.
  - reflexivity.
  - vm_compute. reflexivity.
  - vm_compute. reflexivity.
  - vm_compute. reflexivity.
  - apply walk_ok_intro; vm_compute; reflexivity.
  - discriminate.
  - by rewrite Hfire.
Defined.

(** X13 on the worked run: the tick fires the entry 0 and nothing is
    pending afterwards. *)
Lemma tick_removes_what_it_fires_witness :
  let w := @sc_before_tick plain_host in
  ∃ new, calls (state_of (@PropertiesUnready.process plain_host w)) = calls w ++ new
    ∧ ∀ i, _propertiesUnready (js (state_of (@PropertiesUnready.process plain_host w))) !! i
           = if decide (i ∈ fired_ids new) then None else _propertiesUnready (js w) !! i.
Proof.
  intros w.
  destruct (@tick_removes_what_it_fires plain_host w (λ _ _ _, eq_refl))
    as (new & Hc & _ & Hp & _).
  exists new. split; [exact Hc|]. exact (Hp (λ _ _ _, eq_refl)).
Defined.
